(** * k0: a register-based bytecode execution engine

    Shallow embedding of [src/k0.cc] (namespace [k0::core]) and the
    verification of its specification.

    Conventions of the embedding.
    - [int64_t] values are integers [Z]; the results of arithmetic and of
      pointer/integer casts are brought back into range with [wrap64]
      (two's complement on the 64-bit targets the engine is built for).
    - [std::map<int64_t, V>] is [gmap Z V]; [operator[]] is [map_index],
      which inserts a value-initialised entry when the key is absent.
    - [std::vector<T>] is [list T]; unchecked indexing out of range is
      undefined behaviour and is reported as such ([None] / [Undefined]).
    - [assert] is active (the file does not define NDEBUG): a failed
      assertion aborts the process, reported as [Abort].
    - [Function *] and [void *] are addresses [Z]; the objects they point to
      live in explicit stores ([funcs], [heap]). *)

From stdpp Require Import base numbers option list strings gmap fin_maps.

Local Open Scope Z_scope.

(** ** Machine integers *)

Definition wrap64 (z : Z) : Z := (z + 2 ^ 63) `mod` 2 ^ 64 - 2 ^ 63.
Definition to_u64 (z : Z) : Z := z `mod` 2 ^ 64.
Definition is_int64 (z : Z) : Prop := - 2 ^ 63 ≤ z < 2 ^ 63.

(** [int64_t + int64_t], as the addition of the target computes it: the sum
    modulo 2^64 read back as a signed value.  (ISO C++ gives an overflowing
    signed addition no meaning of its own.) *)
Definition add64 (a b : Z) : Z := wrap64 (a + b).

(** [std::map::operator[]]: the entry under [k], created from [d] when absent. *)
Definition map_index {V} (m : gmap Z V) (k : Z) (d : V) : V * gmap Z V :=
  match m !! k with
  | Some v => (v, m)
  | None => (d, <[k := d]> m)
  end.

(** ** Program model *)

Inductive OP := ALLOCA | IMM | ADD | CMP | BR | CALL | RET | COPY | LOAD | STORE | DEBUG.

(** The enumerators' values, as the [switch] on the [uint8_t] opcode sees them. *)
Definition OP_of (op : Z) : option OP :=
  match op with
  | 0 => Some ALLOCA
  | 1 => Some IMM
  | 2 => Some ADD
  | 3 => Some CMP
  | 4 => Some BR
  | 5 => Some CALL
  | 6 => Some RET
  | 7 => Some COPY
  | 8 => Some LOAD
  | 9 => Some STORE
  | 10 => Some DEBUG
  | _ => None
  end.

Definition OP_code (o : OP) : Z :=
  match o with
  | ALLOCA => 0 | IMM => 1 | ADD => 2 | CMP => 3 | BR => 4 | CALL => 5
  | RET => 6 | COPY => 7 | LOAD => 8 | STORE => 9 | DEBUG => 10
  end.

(** [enum COND] *)
Definition LT : Z := -1.
Definition EQ : Z := 0.
Definition GT : Z := 1.

Record Instruction := { op : Z; operand : list Z }.

(** [Instruction::get]: unchecked [operand[i]]. *)
Definition get (i : Instruction) (k : nat) : option Z := operand i !! k.

Record BasicBlock := { body_ : list Instruction }.

Record Function := {
  name_ : string;
  entry_ : Z;
  basic_blocks_ : gmap Z BasicBlock
}.

Definition entry (F : Function) : Z := entry_ F.

(** [pc.ii] is a [size_t]; a vector is far shorter than [2^64], so an index
    is out of range long before its increment could wrap. *)
Record PC := { f : Z; ib : Z; ii : nat }.

(** ** Heap: [malloc] / [free] and raw 8-byte accesses *)

Record Alloca := { base : Z; size : Z }.

(** [blocks]: the live regions handed out by [malloc], base address to size.
    [cells]: every byte address inside a live region, with its content once
    it has been written. *)
Record Heap := { blocks : gmap Z Z; cells : gmap Z (option Z) }.

Definition empty_heap : Heap := {| blocks := ∅; cells := ∅ |}.

(** The effect on the heap of [malloc(sz)] returning [b] ([0] is [nullptr]). *)
Definition heap_malloc (h : Heap) (b sz : Z) : Heap :=
  if decide (b = 0) then h
  else {| blocks := <[b := sz]> (blocks h);
          cells := foldr (λ a c, <[a := None]> c) (cells h) (seqZ b sz) |}.

(** [free(b)] for [b] non-null: undefined unless [b] is a live base. *)
Definition heap_free (h : Heap) (b : Z) : option Heap :=
  match blocks h !! b with
  | Some sz => Some {| blocks := delete b (blocks h);
                       cells := foldr (λ a c, delete a c) (cells h) (seqZ b sz) |}
  | None => None
  end.

(** [Alloca::~Alloca] *)
Definition Alloca_dtor (a : Alloca) (h : Heap) : option Heap :=
  if decide (base a = 0) then Some h else heap_free h (base a).

(** Destruction of a [std::map<int64_t, std::unique_ptr<Alloca>>]. *)
Fixpoint destroy_allocas (l : list Alloca) (h : Heap) : option Heap :=
  match l with
  | [] => Some h
  | a :: l' => h' ← Alloca_dtor a h; destroy_allocas l' h'
  end.

(** Little-endian bytes of a 64-bit value. *)
Definition bytes_of (v : Z) : list Z :=
  (λ k, (to_u64 v ≫ (8 * k)) `mod` 256) <$> seqZ 0 8.

Definition of_bytes (bs : list Z) : Z :=
  wrap64 (foldr (λ b acc, b + 256 * acc) 0 bs).

(** [*p] read through an [int64_t *]: the eight bytes must be inside live,
    initialised memory and [p] must be aligned. *)
Definition load64 (h : Heap) (p : Z) : option Z :=
  if decide (p `mod` 8 = 0)
  then bs ← mapM (λ a, mjoin (cells h !! a)) (seqZ p 8); Some (of_bytes bs)
  else None.

(** [*p = v] through an [int64_t *]. *)
Definition store64 (h : Heap) (p v : Z) : option Heap :=
  if decide (p `mod` 8 = 0)
  then _ ← mapM (λ a, cells h !! a) (seqZ p 8);
       Some {| blocks := blocks h;
               cells := foldr (λ ab c, <[ab.1 := Some ab.2]> c) (cells h)
                              (zip (seqZ p 8) (bytes_of v)) |}
  else None.

(** An allocator that never reuses an address, to run programs with. *)
Definition bump_malloc (h : Heap) (sz : Z) : Z :=
  16 * (1 + map_fold (λ b s acc, Z.max acc (b + Z.max s 0)) 0 (blocks h)).

(** ** Execution frame *)

Record FunctionContext := {
  allocas : gmap Z Alloca;
  values : gmap Z Z;
  pc : PC
}.

Definition set_values (vs : gmap Z Z) (ctx : FunctionContext) : FunctionContext :=
  {| allocas := allocas ctx; values := vs; pc := pc ctx |}.

Definition set_allocas (al : gmap Z Alloca) (ctx : FunctionContext) : FunctionContext :=
  {| allocas := al; values := values ctx; pc := pc ctx |}.

Definition set_pc (p : PC) (ctx : FunctionContext) : FunctionContext :=
  {| allocas := allocas ctx; values := values ctx; pc := p |}.

(** [FunctionContext::Assign] *)
Definition Assign (reg val : Z) (ctx : FunctionContext) : FunctionContext :=
  set_values (<[reg := val]> (values ctx)) ctx.

(** [FunctionContext::GetVal]: [values[reg]], which creates the entry. *)
Definition GetVal (reg : Z) (ctx : FunctionContext) : Z * FunctionContext :=
  let '(v, vs) := map_index (values ctx) reg 0 in (v, set_values vs ctx).

(** A new frame, as [stack_.emplace_back()] followed by the stores to [pc]. *)
Definition new_frame (fp : Z) (F : Function) : FunctionContext :=
  {| allocas := ∅; values := ∅; pc := {| f := fp; ib := entry F; ii := 0 |} |}.

(** [~FunctionContext]: releases every allocation the frame owns. *)
Definition FunctionContext_dtor (ctx : FunctionContext) (h : Heap) : option Heap :=
  destroy_allocas (map_to_list (allocas ctx)).*2 h.

(** ** Machine state *)

(** [stack_] lists the frames from the top: its head is [stack_.back()].
    [cerr] is what DEBUG has written, oldest first. *)
Record Machine := {
  stack_ : list FunctionContext;
  funcs : gmap Z Function;
  heap : Heap;
  cerr : list Z
}.

Inductive Outcome :=
  | Running (m : Machine)
  | Abort (msg : string) (m : Machine)
  | Undefined.

Inductive Result :=
  | Exited (m : Machine)
  | Aborted (msg : string) (m : Machine)
  | UB
  | Timeout (m : Machine).

Definition ub (o : option Outcome) : Outcome := default Undefined o.

Definition is_fault (o : Outcome) : Prop :=
  match o with Abort _ _ => True | _ => False end.

(** ** The demonstration program of [main]

    The two [Function] objects of [main] are placed at two addresses.  The
    operand [main] gives its CALL is [*(reinterpret_cast<int64_t *>(&Callee))]:
    not the address of [Callee] but the first eight bytes of that object,
    which belong to its [name_].  What that word is depends on the layout of
    [std::string], which is outside this embedding, so the program takes it
    as the parameter [callee_word]. *)

Definition F_addr : Z := 4096.
Definition Callee_addr : Z := 8192.

Definition instr (o : OP) (args : list Z) : Instruction :=
  {| op := OP_code o; operand := args |}.

Definition main_F (callee_word : Z) : Function :=
  {| name_ := EmptyString; entry_ := 0;
     basic_blocks_ := {[ 0 := {| body_ :=
       [ instr IMM [1; 4096];
         instr DEBUG [1; 4096];
         instr IMM [1; 1024];
         instr CALL [callee_word];
         instr IMM [2; -1024];
         instr DEBUG [3];
         instr RET [] ] |} ]} |}.

Definition main_Callee : Function :=
  {| name_ := EmptyString; entry_ := 0;
     basic_blocks_ := {[ 0 := {| body_ := [ instr RET [] ] |} ]} |}.

Definition main_funcs (callee_word : Z) : gmap Z Function :=
  <[F_addr := main_F callee_word]> (<[Callee_addr := main_Callee]> ∅).

(** A freshly constructed [ExecutionEngine] next to the given functions. *)
Definition init (fs : gmap Z Function) : Machine :=
  {| stack_ := []; funcs := fs; heap := empty_heap; cerr := [] |}.

(** A machine about to execute the single instruction [i] in one frame whose
    registers are [vs]. *)
Definition one_func (i : Instruction) : Function :=
  {| name_ := EmptyString; entry_ := 0;
     basic_blocks_ := {[ 0 := {| body_ := [i] |} ]} |}.

Definition one_frame (vs : gmap Z Z) (k : nat) : FunctionContext :=
  {| allocas := ∅; values := vs; pc := {| f := F_addr; ib := 0; ii := k |} |}.

Definition one_instr (i : Instruction) (vs : gmap Z Z) : Machine :=
  {| stack_ := [one_frame vs 0]; funcs := {[ F_addr := one_func i ]};
     heap := empty_heap; cerr := [] |}.

(** A frame of [main_F] stopped at its CALL, for the word that is the
    callee's address. *)
Definition call_machine : Machine :=
  {| stack_ := [ {| allocas := ∅; values := {[ 1 := 1024 ]};
                    pc := {| f := F_addr; ib := 0; ii := 3 |} |} ];
     funcs := main_funcs Callee_addr; heap := empty_heap; cerr := [4096] |}.

(** A frame that owns the 16-byte region at address 16 under register 1,
    about to execute [i]. *)
Definition owning_machine (i : Instruction) : Machine :=
  {| stack_ := [ {| allocas := {[ 1 := {| base := 16; size := 16 |} ]};
                    values := {[ 1 := 16 ]};
                    pc := {| f := F_addr; ib := 0; ii := 0 |} |} ];
     funcs := {[ F_addr := one_func i ]};
     heap := heap_malloc empty_heap 16 16; cerr := [] |}.

(** A frame whose program counter names block 7 of a function that has
    block 0 only, and a program that branches there. *)
Definition bad_block_machine : Machine :=
  {| stack_ := [ {| allocas := ∅; values := ∅;
                    pc := {| f := F_addr; ib := 7; ii := 0 |} |} ];
     funcs := {[ F_addr := one_func (instr RET []) ]};
     heap := empty_heap; cerr := [] |}.

Definition bad_branch_F : Function :=
  {| name_ := EmptyString; entry_ := 0;
     basic_blocks_ := {[ 0 := {| body_ := [ instr IMM [1; 1]; instr BR [1; 7; 8] ] |} ]} |}.

(** ** Execution engine *)

Section Engine.

(** The address [malloc] returns for a request of the given size in the
    given heap; [0] when it fails. *)
Variable malloc : Heap → Z → Z.

(** [FunctionContext::Allocate].  [std::map::insert] does not replace an
    existing entry: the [unique_ptr] stays in the temporary pair, whose
    destruction at the end of the statement runs [~Alloca]. *)
Definition Allocate (reg sz : Z) (h : Heap) (ctx : FunctionContext)
  : option (Heap * FunctionContext) :=
  let b := malloc h sz in
  let h1 := heap_malloc h b sz in
  let a := {| base := b; size := sz |} in
  let ctx1 := Assign reg (wrap64 b) ctx in
  match allocas ctx1 !! reg with
  | Some _ => h2 ← Alloca_dtor a h1; Some (h2, ctx1)
  | None => Some (h1, set_allocas (<[reg := a]> (allocas ctx1)) ctx1)
  end.

Definition with_top (m : Machine) (ctx : FunctionContext) (rest : list FunctionContext) : Machine :=
  {| stack_ := ctx :: rest; funcs := funcs m; heap := heap m; cerr := cerr m |}.

(** The fetch [pc.f->basic_blocks_[pc.ib].body_[pc.ii++]]: the instruction,
    the function store after [operator[]], and the frame with the index
    advanced. *)
Definition fetch (fs : gmap Z Function) (ctx : FunctionContext)
  : option (Instruction * gmap Z Function * FunctionContext) :=
  F ← fs !! f (pc ctx);
  let '(bb, bbs) := map_index (basic_blocks_ F) (ib (pc ctx)) {| body_ := [] |} in
  let fs' := <[f (pc ctx) := {| name_ := name_ F; entry_ := entry_ F; basic_blocks_ := bbs |}]> fs in
  i ← body_ bb !! ii (pc ctx);
  Some (i, fs',
        set_pc {| f := f (pc ctx); ib := ib (pc ctx); ii := S (ii (pc ctx)) |} ctx).

(** The [switch] of [ExecuteInstruction], on the fetched instruction [i]
    with [ctx] the top frame and [rest] the frames below it. *)
Definition dispatch (i : Instruction) (ctx : FunctionContext)
    (rest : list FunctionContext) (m : Machine) : Outcome :=
  match OP_of (op i) with
  | Some ALLOCA => ub (
      reg ← get i 0;
      sz ← get i 1;
      '(h, ctx') ← Allocate reg (to_u64 sz) (heap m) ctx;
      Some (Running {| stack_ := ctx' :: rest; funcs := funcs m; heap := h; cerr := cerr m |}))
  | Some IMM => ub (
      reg ← get i 0;
      val ← get i 1;
      Some (Running (with_top m (Assign reg val ctx) rest)))
  | Some ADD => ub (
      dst_reg ← get i 0;
      r0 ← get i 1;
      let '(op0_val, ctx) := GetVal r0 ctx in
      r1 ← get i 2;
      let '(op1_val, ctx) := GetVal r1 ctx in
      Some (Running (with_top m (Assign dst_reg (add64 op0_val op1_val) ctx) rest)))
  | Some CMP => ub (
      dst_reg ← get i 0;
      cond ← get i 1;
      r0 ← get i 2;
      let '(op0_val, ctx) := GetVal r0 ctx in
      r1 ← get i 3;
      let '(op1_val, ctx) := GetVal r1 ctx in
      let flag := if decide (op0_val = op1_val) then EQ
                  else if decide (op0_val < op1_val) then LT else GT in
      Some (Running (with_top m (Assign dst_reg (if decide (flag = cond) then 1 else 0) ctx) rest)))
  | Some COPY => ub (
      r ← get i 1;
      let '(src_val, ctx) := GetVal r ctx in
      dst ← get i 0;
      Some (Running (with_top m (Assign dst src_val ctx) rest)))
  | Some LOAD => ub (
      dst_reg ← get i 0;
      r ← get i 1;
      let '(src, ctx) := GetVal r ctx in
      v ← load64 (heap m) (to_u64 src);
      Some (Running (with_top m (Assign dst_reg v ctx) rest)))
  | Some STORE => ub (
      r1 ← get i 1;
      let '(dst, ctx) := GetVal r1 ctx in
      r0 ← get i 0;
      let '(src_val, ctx) := GetVal r0 ctx in
      h ← store64 (heap m) (to_u64 dst) src_val;
      Some (Running {| stack_ := ctx :: rest; funcs := funcs m; heap := h; cerr := cerr m |}))
  | Some BR => ub (
      r ← get i 0;
      let '(flag_val, ctx) := GetVal r ctx in
      let ctx := set_pc {| f := f (pc ctx); ib := ib (pc ctx); ii := 0 |} ctx in
      target ← (if decide (flag_val ≠ 0) then get i 1 else get i 2);
      Some (Running (with_top m
              (set_pc {| f := f (pc ctx); ib := target; ii := ii (pc ctx) |} ctx) rest)))
  | Some CALL => ub (
      fp ← get i 0;
      if decide (fp = 0)
      then Some (Abort "Unable to resolve function" (with_top m ctx rest))
      else F ← funcs m !! fp;
           Some (Running (with_top m (new_frame fp F) (ctx :: rest))))
  | Some RET => ub (
      h ← FunctionContext_dtor ctx (heap m);
      Some (Running {| stack_ := rest; funcs := funcs m; heap := h; cerr := cerr m |}))
  | Some DEBUG => ub (
      r ← get i 0;
      let '(v, ctx) := GetVal r ctx in
      Some (Running {| stack_ := ctx :: rest; funcs := funcs m; heap := heap m;
                       cerr := cerr m ++ [v] |}))
  | None => Abort "Unsupported opcode" (with_top m ctx rest)
  end.

(** [ExecutionEngine::ExecuteInstruction] *)
Definition ExecuteInstruction (m : Machine) : Outcome :=
  match stack_ m with
  | [] => Undefined
  | ctx :: rest =>
      match fetch (funcs m) ctx with
      | None => Undefined
      | Some (i, fs, ctx') =>
          dispatch i ctx' rest
            {| stack_ := ctx' :: rest; funcs := fs; heap := heap m; cerr := cerr m |}
      end
  end.

(** [ExecutionEngine::Execute]: the loop runs until the stack is empty; the
    fuel bounds the number of instructions this model runs. *)
Fixpoint Execute (fuel : nat) (m : Machine) : Result :=
  match stack_ m with
  | [] => Exited m
  | _ :: _ =>
      match fuel with
      | O => Timeout m
      | S n =>
          match ExecuteInstruction m with
          | Running m' => Execute n m'
          | Abort msg m' => Aborted msg m'
          | Undefined => UB
          end
      end
  end.

(** [ExecutionEngine::ExecuteEntry] *)
Definition ExecuteEntry (fuel : nat) (fp : Z) (m : Machine) : Result :=
  match funcs m !! fp with
  | None => UB
  | Some F =>
      Execute fuel {| stack_ := new_frame fp F :: stack_ m; funcs := funcs m;
                      heap := heap m; cerr := cerr m |}
  end.

End Engine.

(** ** Vocabulary of the specification *)

(** The value a read of [reg] yields and the register map it leaves behind. *)
Definition read (vs : gmap Z Z) (reg : Z) : Z := default 0 (vs !! reg).

Definition touch (reg : Z) (vs : gmap Z Z) : gmap Z Z :=
  match vs !! reg with Some _ => vs | None => <[reg := 0]> vs end.

(** The registers whose value an instruction reads, in the order of the
    [GetVal] calls of its case. *)
Definition reads (i : Instruction) : list Z :=
  match OP_of (op i) with
  | Some ADD => omap (get i) [1; 2]%nat
  | Some CMP => omap (get i) [2; 3]%nat
  | Some COPY => omap (get i) [1]%nat
  | Some LOAD => omap (get i) [1]%nat
  | Some STORE => omap (get i) [1; 0]%nat
  | Some BR => omap (get i) [0]%nat
  | Some DEBUG => omap (get i) [0]%nat
  | _ => []
  end.

(** The top frame with [reg] bound to [0] beforehand. *)
Definition bind_zero (reg : Z) (m : Machine) : Machine :=
  match stack_ m with
  | [] => m
  | ctx :: rest =>
      {| stack_ := Assign reg 0 ctx :: rest; funcs := funcs m; heap := heap m; cerr := cerr m |}
  end.

(** Three-way ordering of two values, as a [COND]. *)
Definition ordering (a b : Z) : Z :=
  match a ?= b with Lt => LT | Eq => EQ | Gt => GT end.

(** Every non-null region recorded in [al] is live with its recorded size,
    and no two entries record the same region. *)
Definition owns (h : Heap) (al : gmap Z Alloca) : Prop :=
  blocks h !! 0 = None ∧
  (∀ r a, al !! r = Some a → base a ≠ 0 → blocks h !! base a = Some (size a)) ∧
  (∀ r1 r2 a1 a2, al !! r1 = Some a1 → al !! r2 = Some a2 →
                  base a1 ≠ 0 → base a1 = base a2 → r1 = r2).

(** The regions recorded by the frames of a stack, given as the list of their
    ownership maps: each non-null one is live with its recorded size, no
    region is recorded twice, neither within a frame nor across frames, and
    every live region is recorded by some frame. *)
Definition alloc_inv (bl : gmap Z Z) (als : list (gmap Z Alloca)) : Prop :=
  bl !! 0 = None ∧
  (∀ k al r a, als !! k = Some al → al !! r = Some a → base a ≠ 0 →
               bl !! base a = Some (size a)) ∧
  (∀ k1 k2 al1 al2 r1 r2 a1 a2,
     als !! k1 = Some al1 → als !! k2 = Some al2 →
     al1 !! r1 = Some a1 → al2 !! r2 = Some a2 →
     base a1 ≠ 0 → base a1 = base a2 → k1 = k2 ∧ r1 = r2) ∧
  (∀ b s, bl !! b = Some s →
          ∃ k al r a, als !! k = Some al ∧ al !! r = Some a ∧ base a = b).

Definition heap_inv (m : Machine) : Prop :=
  alloc_inv (blocks (heap m)) (allocas <$> stack_ m).

(** [malloc] never returns the base of a region that is still live. *)
Definition malloc_fresh (malloc : Heap → Z → Z) : Prop :=
  ∀ h sz, malloc h sz ≠ 0 → blocks h !! malloc h sz = None.

(** ** Vocabulary for further properties *)

(** A straight-line sequence that loads each literal into its register and
    prints the register. *)
Definition imm_debug (l : list (Z * Z)) : list Instruction :=
  l ≫= λ rv, [instr IMM [rv.1; rv.2]; instr DEBUG [rv.1]].

(** The register map after binding the given registers in order. *)
Definition bind_all (l : list (Z * Z)) (vs : gmap Z Z) : gmap Z Z :=
  foldl (λ acc rv, <[rv.1 := rv.2]> acc) vs l.

(** The number of operands the case of an opcode may read, and the number
    below which it always reads out of range (BR reads its condition and
    one of its two targets). *)
Definition arity (o : OP) : nat :=
  match o with
  | ALLOCA => 2 | IMM => 2 | ADD => 3 | CMP => 4 | BR => 3 | CALL => 1
  | RET => 0 | COPY => 2 | LOAD => 2 | STORE => 2 | DEBUG => 1
  end.

Definition needed (o : OP) : nat :=
  match o with BR => 2 | _ => arity o end.

(** Machines to run the further properties on. *)


(** A function that allocates, writes, reads back and prints. *)
Definition alloc_F : Function :=
  {| name_ := EmptyString; entry_ := 0;
     basic_blocks_ := {[ 0 := {| body_ :=
       [ instr ALLOCA [1; 16];
         instr IMM [2; 7];
         instr STORE [2; 1];
         instr LOAD [3; 1];
         instr DEBUG [3];
         instr RET [] ] |} ]} |}.


(** Two frames: the top one, with register 1 bound, is about to execute
    [i]; the one below it owns the region at address 16 and has registers of
    its own. *)
Definition lower_frame : FunctionContext :=
  {| allocas := {[ 1 := {| base := 16; size := 16 |} ]};
     values := {[ 1 := 16; 2 := 7 ]};
     pc := {| f := F_addr; ib := 0; ii := 1 |} |}.

Definition two_frame_machine (i : Instruction) : Machine :=
  {| stack_ := [one_frame {[ 1 := 3 ]} 0; lower_frame];
     funcs := {[ F_addr := one_func i ]};
     heap := heap_malloc empty_heap 16 16; cerr := [] |}.

(** A function that prints the given literals and returns, and a caller
    stopped at its CALL of it with register 1 bound. *)
Definition print_F (l : list (Z * Z)) : Function :=
  {| name_ := EmptyString; entry_ := 0;
     basic_blocks_ := {[ 0 := {| body_ := imm_debug l ++ [instr RET []] |} ]} |}.

Definition print_machine (l : list (Z * Z)) : Machine :=
  {| stack_ := [new_frame F_addr (print_F l)]; funcs := {[ F_addr := print_F l ]};
     heap := empty_heap; cerr := [] |}.

Definition caller_F : Function :=
  {| name_ := EmptyString; entry_ := 0;
     basic_blocks_ := {[ 0 := {| body_ :=
       [ instr IMM [1; 1024]; instr CALL [Callee_addr]; instr DEBUG [1]; instr RET [] ] |} ]} |}.

Definition caller_machine (l : list (Z * Z)) : Machine :=
  {| stack_ := [ {| allocas := ∅; values := {[ 1 := 1024 ]};
                    pc := {| f := F_addr; ib := 0; ii := 1 |} |} ];
     funcs := <[F_addr := caller_F]> (<[Callee_addr := print_F l]> ∅);
     heap := empty_heap; cerr := [] |}.

(** * Verification *)

(** ** Machine integers *)

Lemma wrap64_range z : is_int64 (wrap64 z).
Proof. unfold is_int64, wrap64. pose proof (Z.mod_pos_bound (z + 2 ^ 63) (2 ^ 64)). lia. Qed.

Lemma wrap64_id z : is_int64 z → wrap64 z = z.
Proof. unfold is_int64, wrap64. intros. rewrite Z.mod_small; lia. Qed.

Lemma wrap64_congr z : wrap64 z `mod` 2 ^ 64 = z `mod` 2 ^ 64.
Proof.
  unfold wrap64.
  rewrite Zminus_mod_idemp_l. f_equal. lia.
Qed.

Lemma add64_comm a b : add64 a b = add64 b a.
Proof. unfold add64. by rewrite Z.add_comm. Qed.

(** ** Register reads *)

Lemma GetVal_eq reg ctx :
  GetVal reg ctx = (read (values ctx) reg, set_values (touch reg (values ctx)) ctx).
Proof.
  unfold GetVal, map_index, read, touch. by destruct (values ctx !! reg).
Qed.

Lemma read_touch r r' vs : read (touch r vs) r' = read vs r'.
Proof.
  unfold read, touch. destruct (vs !! r) eqn:E; [done|].
  rewrite lookup_insert. case_decide; [subst; by rewrite E | done].
Qed.

Lemma touch_idemp r vs : touch r (touch r vs) = touch r vs.
Proof.
  unfold touch. destruct (vs !! r) eqn:E; [by rewrite E|].
  by rewrite lookup_insert_eq.
Qed.

Lemma touch_comm r r' vs : touch r (touch r' vs) = touch r' (touch r vs).
Proof.
  destruct (decide (r = r')) as [->|Hne]; [done|].
  unfold touch. destruct (vs !! r) eqn:E, (vs !! r') eqn:E';
    rewrite ?E, ?E', ?lookup_insert_ne, ?E, ?E' by done; try done.
  by apply insert_insert_ne.
Qed.

Lemma touch_unbound r vs : vs !! r = None → touch r vs = <[r := 0]> vs.
Proof. unfold touch. by intros ->. Qed.


(** ** The fetch *)

Section EngineFacts.

Variable malloc : Heap → Z → Z.

Lemma step_fetch m ctx rest i fs ctx' :
  stack_ m = ctx :: rest →
  fetch (funcs m) ctx = Some (i, fs, ctx') →
  ExecuteInstruction malloc m =
    dispatch malloc i ctx' rest {| stack_ := ctx' :: rest; funcs := fs; heap := heap m; cerr := cerr m |}.
Proof. intros Hs Hf. unfold ExecuteInstruction. by rewrite Hs, Hf. Qed.

Lemma fetch_frame fs ctx i fs' ctx' :
  fetch fs ctx = Some (i, fs', ctx') →
  ctx' = set_pc {| f := f (pc ctx); ib := ib (pc ctx); ii := S (ii (pc ctx)) |} ctx.
Proof.
  unfold fetch. intros H.
  destruct (fs !! f (pc ctx)) as [F|]; [|done]. simpl in H.
  destruct (map_index _ _ _) as [bb bbs].
  destruct (body_ bb !! ii (pc ctx)); [|done]. simpl in H. congruence.
Qed.

Lemma fetch_set_values fs ctx vs :
  fetch fs (set_values vs ctx) =
    (λ '(i, fs', c), (i, fs', set_values vs c)) <$> fetch fs ctx.
Proof.
  unfold fetch. simpl.
  destruct (fs !! f (pc ctx)) as [F|]; [|done]. simpl.
  destruct (map_index _ _ _) as [bb bbs].
  by destruct (body_ bb !! ii (pc ctx)).
Qed.

Lemma dispatch_no_fault i ctx rest m :
  is_Some (OP_of (op i)) → OP_of (op i) ≠ Some CALL → ¬ is_fault (dispatch malloc i ctx rest m).
Proof.
  intros [o Ho] Hc. unfold dispatch. rewrite Ho.
  destruct o; try done; unfold ub;
    repeat match goal with
    | |- context [GetVal ?r ?c] => rewrite (GetVal_eq r c)
    | |- context [get i ?k] => destruct (get i k); simpl
    | |- context [decide ?P] => destruct (decide P); simpl
    | |- context [load64 ?h ?p] => destruct (load64 h p); simpl
    | |- context [store64 ?h ?p ?v] => destruct (store64 h p v); simpl
    | |- context [Allocate ?g ?r ?s ?h ?c] => destruct (Allocate g r s h c) as [[??]|]; simpl
    | |- context [FunctionContext_dtor ?c ?h] => destruct (FunctionContext_dtor c h); simpl
    end; auto.
Qed.

(** ** Reads of unbound registers *)

Lemma Assign_zero_touch r ctx :
  values ctx !! r = None → Assign r 0 ctx = set_values (touch r (values ctx)) ctx.
Proof. intros H. unfold Assign. by rewrite touch_unbound. Qed.

Lemma touch1_absorb r a vs : r ∈ [a] → touch a (touch r vs) = touch a vs.
Proof. intros ->%list_elem_of_singleton. apply touch_idemp. Qed.

Lemma touch2_absorb r a b vs :
  r ∈ [a; b] → touch b (touch a (touch r vs)) = touch b (touch a vs).
Proof.
  rewrite elem_of_cons, list_elem_of_singleton. intros [->| ->].
  - by rewrite touch_idemp.
  - by rewrite (touch_comm a b), touch_idemp.
Qed.

Ltac step_case :=
  repeat match goal with
  | |- context [GetVal ?r ?c] => rewrite (GetVal_eq r c); cbn [values set_values pc allocas]
  | H : get ?i ?k = _ |- context [get ?i ?k] => rewrite H; cbn [mbind option_bind]
  end.

(** Reading a register that is read again later leaves the same register
    map as reading it once at the start. *)
Lemma dispatch_touch r i ctx rest m :
  r ∈ reads i →
  dispatch malloc i (set_values (touch r (values ctx)) ctx) rest m = dispatch malloc i ctx rest m.
Proof.
  unfold reads, dispatch. destruct (OP_of (op i)) as [[]|]; try (by intros ?%elem_of_nil);
    cbn [omap list_omap]; unfold ub.
  all: repeat match goal with
       | |- context [get ?j ?k] => let E := fresh in destruct (get j k) eqn:E; cbn [mbind option_bind]
       end.
  all: try (by intros ?%elem_of_nil).
  all: try done.
  all: intros Hr; step_case; rewrite ?read_touch; unfold Assign, set_values, set_pc, with_top;
    cbn [values pc allocas f ib ii];
    rewrite ?(touch2_absorb _ _ _ _ Hr), ?(touch1_absorb _ _ _ Hr); done.
Qed.


Lemma fetch_one i vs :
  fetch {[ F_addr := one_func i ]} (one_frame vs 0)
  = Some (i, {[ F_addr := one_func i ]}, one_frame vs 1).
Proof.
  unfold fetch, one_frame, map_index. cbn [pc f ib ii].
  rewrite lookup_singleton_eq. cbn [mbind option_bind one_func basic_blocks_].
  rewrite lookup_singleton_eq. cbn. unfold F_addr, one_func. by rewrite insert_insert_eq.
Qed.

(** C9: reading a register that is not bound in the executing frame returns
    0 and inserts the binding of that register to 0 into the frame's
    register map; DEBUG(reg) on an unbound register therefore changes the
    frame (the register becomes bound) besides printing 0. *)
Theorem unbound_read_binds_zero m ctx rest i fs ctx' reg :
  stack_ m = ctx :: rest →
  fetch (funcs m) ctx = Some (i, fs, ctx') →
  values ctx !! reg = None →
  GetVal reg ctx = (0, Assign reg 0 ctx) ∧
  values (GetVal reg ctx).2 !! reg = Some 0 ∧
  (op i = OP_code DEBUG → get i 0 = Some reg →
   values ctx' !! reg = None ∧
   values (Assign reg 0 ctx') !! reg = Some 0 ∧
   ExecuteInstruction malloc m =
     Running {| stack_ := Assign reg 0 ctx' :: rest; funcs := fs;
                heap := heap m; cerr := cerr m ++ [0] |}).
Proof.
  intros Hs Hf Hu.
  assert (GetVal reg ctx = (0, Assign reg 0 ctx)) as HG.
  { rewrite GetVal_eq, Assign_zero_touch by done. unfold read. by rewrite Hu. }
  split; [done|]. split.
  { rewrite HG. cbn. apply lookup_insert_eq. }
  intros Hop Hg. pose proof (fetch_frame _ _ _ _ _ Hf) as ->. split; [done|].
  split; [apply lookup_insert_eq|].
  rewrite (step_fetch _ _ _ _ _ _ Hs Hf). unfold dispatch. rewrite Hop. cbn [OP_of OP_code].
  step_case. rewrite Assign_zero_touch by done. unfold read. cbn [values set_pc]. by rewrite Hu.
Qed.

(** C1 (amended): a read of a register that was never bound is not a fault:
    [GetVal] yields 0 and binds the register to 0, and every instruction that
    reads such a register (ADD, CMP, COPY, LOAD, STORE, BR, DEBUG) behaves
    exactly as on the frame in which the register had been bound to 0
    beforehand; none of these instructions raises a fault. *)
Theorem unbound_read_defaults m ctx rest i fs ctx' r :
  stack_ m = ctx :: rest →
  fetch (funcs m) ctx = Some (i, fs, ctx') →
  r ∈ reads i →
  values ctx !! r = None →
  GetVal r ctx = (0, Assign r 0 ctx) ∧
  ¬ is_fault (ExecuteInstruction malloc m) ∧
  ExecuteInstruction malloc m = ExecuteInstruction malloc (bind_zero r m).
Proof.
  intros Hs Hf Hr Hu. split; [|split].
  - rewrite GetVal_eq, Assign_zero_touch by done. unfold read. by rewrite Hu.
  - rewrite (step_fetch _ _ _ _ _ _ Hs Hf). apply dispatch_no_fault.
    + unfold reads in Hr. destruct (OP_of (op i)); [done | by apply elem_of_nil in Hr].
    + unfold reads in Hr. intros E. rewrite E in Hr. by apply elem_of_nil in Hr.
  - assert (fetch (funcs (bind_zero r m)) (Assign r 0 ctx) = Some (i, fs, Assign r 0 ctx')) as Hf'.
    { unfold bind_zero. rewrite Hs. cbn [funcs]. unfold Assign.
      rewrite fetch_set_values, Hf. cbn.
      by rewrite (fetch_frame _ _ _ _ _ Hf). }
    rewrite (step_fetch _ _ _ _ _ _ Hs Hf).
    rewrite (step_fetch (bind_zero r m) (Assign r 0 ctx) rest i fs (Assign r 0 ctx')); [| |done].
    2: { unfold bind_zero. by rewrite Hs. }
    assert (values ctx' !! r = None) as Hu'.
    { by rewrite (fetch_frame _ _ _ _ _ Hf). }
    rewrite (Assign_zero_touch r ctx' Hu'), <- (dispatch_touch r i ctx' rest _ Hr).
    unfold bind_zero. rewrite Hs. cbn [heap cerr].
    unfold dispatch, with_top. cbn [funcs heap cerr]. done.
Qed.

(** ** Fetching from a block id that is not in the function *)

(** C2 (amended): when the block id of the program counter is not a key of
    the current function's block map, the fetch creates an empty block
    under that id ([operator[]]) and reads its body out of range; no fault
    is raised by the engine, the behaviour is undefined, and the run has no
    defined continuation. *)
Theorem missing_block_undefined m ctx rest F :
  stack_ m = ctx :: rest →
  funcs m !! f (pc ctx) = Some F →
  basic_blocks_ F !! ib (pc ctx) = None →
  map_index (basic_blocks_ F) (ib (pc ctx)) {| body_ := [] |}
    = ({| body_ := [] |}, <[ib (pc ctx) := {| body_ := [] |}]> (basic_blocks_ F)) ∧
  fetch (funcs m) ctx = None ∧
  ExecuteInstruction malloc m = Undefined ∧
  ¬ is_fault (ExecuteInstruction malloc m) ∧
  ∀ fuel, Execute malloc (S fuel) m = UB.
Proof.
  intros Hs HF Hb.
  assert (map_index (basic_blocks_ F) (ib (pc ctx)) {| body_ := [] |}
    = ({| body_ := [] |}, <[ib (pc ctx) := {| body_ := [] |}]> (basic_blocks_ F))) as Hi.
  { unfold map_index. by rewrite Hb. }
  assert (fetch (funcs m) ctx = None) as Hf.
  { unfold fetch. rewrite HF. cbn [mbind option_bind]. by rewrite Hi. }
  assert (ExecuteInstruction malloc m = Undefined) as He.
  { unfold ExecuteInstruction. by rewrite Hs, Hf. }
  split; [done|]. split; [done|]. split; [done|]. split.
  - rewrite He. by intros [].
  - intros fuel. cbn [Execute]. by rewrite Hs, He.
Qed.

(** ** Arithmetic and comparison *)

Lemma ordering_cases a b :
  (ordering a b = LT ∧ a < b) ∨ (ordering a b = EQ ∧ a = b) ∨ (ordering a b = GT ∧ b < a).
Proof. unfold ordering. destruct (Z.compare_spec a b); auto. Qed.

Lemma flag_ordering a b :
  (if decide (a = b) then EQ else if decide (a < b) then LT else GT) = ordering a b.
Proof.
  destruct (ordering_cases a b) as [[-> ?]|[[-> ?]|[-> ?]]];
    repeat case_decide; done || lia.
Qed.

(** C3: CMP(dst, cond, a, b) binds dst to 1 when the three-way ordering of
    value(a) and value(b) (LT = -1, EQ = 0, GT = 1) equals cond and to 0
    otherwise; with both operands the same register, cond = EQ gives 1 and
    cond = LT or GT gives 0. *)
Theorem cmp_binds_flag m ctx rest i fs ctx' dst cond a b :
  stack_ m = ctx :: rest →
  fetch (funcs m) ctx = Some (i, fs, ctx') →
  op i = OP_code CMP →
  get i 0 = Some dst → get i 1 = Some cond → get i 2 = Some a → get i 3 = Some b →
  let va := read (values ctx) a in
  let vb := read (values ctx) b in
  let flag := if decide (ordering va vb = cond) then 1 else 0 in
  ExecuteInstruction malloc m =
    Running {| stack_ := Assign dst flag (set_values (touch b (touch a (values ctx))) ctx') :: rest;
               funcs := fs; heap := heap m; cerr := cerr m |} ∧
  values (Assign dst flag (set_values (touch b (touch a (values ctx))) ctx')) !! dst = Some flag ∧
  ((va < vb ∧ ordering va vb = -1) ∨ (va = vb ∧ ordering va vb = 0) ∨ (va > vb ∧ ordering va vb = 1)) ∧
  (a = b → cond = EQ → flag = 1) ∧
  (a = b → cond = LT ∨ cond = GT → flag = 0).
Proof.
  intros Hs Hf Hop H0 H1 H2 H3 va vb flag.
  pose proof (fetch_frame _ _ _ _ _ Hf) as Hc.
  split; [|split; [|split; [|split]]].
  - rewrite (step_fetch _ _ _ _ _ _ Hs Hf). unfold dispatch. rewrite Hop. cbn [OP_of OP_code].
    step_case. rewrite read_touch, flag_ordering. subst ctx'. done.
  - cbn. apply lookup_insert_eq.
  - destruct (ordering_cases va vb) as [[-> ?]|[[-> ?]|[-> ?]]]; unfold LT, EQ, GT; auto with lia.
  - intros -> ->. subst flag va vb.
    destruct (ordering_cases (read (values ctx) b) (read (values ctx) b)) as [[? ?]|[[-> ?]|[? ?]]];
      [lia | by case_decide | lia].
  - intros -> Hcond. subst flag va vb.
    destruct (ordering_cases (read (values ctx) b) (read (values ctx) b)) as [[? ?]|[[-> ?]|[? ?]]];
      [lia | | lia].
    case_decide; [|done]. unfold EQ, LT, GT in *. lia.
Qed.

(** C4: ADD(dst, a, b) binds dst to value(a) + value(b) reduced modulo 2^64
    into the signed 64-bit range; the instruction never faults on overflow,
    the sum is the exact one when it fits, and swapping the two source
    operands gives the same result. *)
Theorem add_wraps m ctx rest i fs ctx' dst a b :
  stack_ m = ctx :: rest →
  fetch (funcs m) ctx = Some (i, fs, ctx') →
  op i = OP_code ADD →
  get i 0 = Some dst → get i 1 = Some a → get i 2 = Some b →
  let va := read (values ctx) a in
  let vb := read (values ctx) b in
  ExecuteInstruction malloc m =
    Running {| stack_ := Assign dst (add64 va vb) (set_values (touch b (touch a (values ctx))) ctx') :: rest;
               funcs := fs; heap := heap m; cerr := cerr m |} ∧
  values (Assign dst (add64 va vb) (set_values (touch b (touch a (values ctx))) ctx')) !! dst
    = Some (add64 va vb) ∧
  is_int64 (add64 va vb) ∧
  add64 va vb `mod` 2 ^ 64 = (va + vb) `mod` 2 ^ 64 ∧
  (is_int64 (va + vb) → add64 va vb = va + vb) ∧
  add64 va vb = add64 vb va ∧
  (∀ j, op j = OP_code ADD → get j 0 = Some dst → get j 1 = Some b → get j 2 = Some a →
        ∀ M, dispatch malloc j ctx' rest M = dispatch malloc i ctx' rest M).
Proof.
  intros Hs Hf Hop H0 H1 H2 va vb.
  pose proof (fetch_frame _ _ _ _ _ Hf) as Hc.
  repeat split.
  - rewrite (step_fetch _ _ _ _ _ _ Hs Hf). unfold dispatch. rewrite Hop. cbn [OP_of OP_code].
    step_case. rewrite read_touch. subst ctx'. done.
  - cbn. apply lookup_insert_eq.
  - apply wrap64_range.
  - apply wrap64_range.
  - apply wrap64_congr.
  - apply wrap64_id.
  - apply add64_comm.
  - intros j Hj J0 J1 J2 M. unfold dispatch. rewrite Hop, Hj. cbn [OP_of OP_code].
    step_case. rewrite !read_touch, (touch_comm a b), add64_comm. done.
Qed.

(** ** Control flow *)

(** C5: BR(condReg, trueBlock, falseBlock) resets the instruction index of
    the current frame to 0 and sets its block id to trueBlock when
    value(condReg) is not zero, to falseBlock when it is zero. *)
Theorem br_sets_pc m ctx rest i fs ctx' c t e :
  stack_ m = ctx :: rest →
  fetch (funcs m) ctx = Some (i, fs, ctx') →
  op i = OP_code BR →
  get i 0 = Some c → get i 1 = Some t → get i 2 = Some e →
  let v := read (values ctx) c in
  let target := if decide (v ≠ 0) then t else e in
  let ctx'' := {| allocas := allocas ctx; values := touch c (values ctx);
                  pc := {| f := f (pc ctx); ib := target; ii := 0 |} |} in
  ExecuteInstruction malloc m =
    Running {| stack_ := ctx'' :: rest; funcs := fs; heap := heap m; cerr := cerr m |} ∧
  ii (pc ctx'') = 0%nat ∧
  (v ≠ 0 → ib (pc ctx'') = t) ∧
  (v = 0 → ib (pc ctx'') = e).
Proof.
  intros Hs Hf Hop H0 H1 H2 v target ctx''.
  pose proof (fetch_frame _ _ _ _ _ Hf) as Hc.
  repeat split.
  - rewrite (step_fetch _ _ _ _ _ _ Hs Hf). unfold dispatch. rewrite Hop. cbn [OP_of OP_code].
    step_case. subst ctx' ctx'' target v. cbn [set_pc values allocas pc f ib ii].
    destruct (decide (read (values ctx) c ≠ 0)); cbn [mbind option_bind]; step_case; done.
  - subst ctx'' target. cbn. intros. by case_decide.
  - subst ctx'' target. cbn. intros. by case_decide.
Qed.

(** C6: a CALL whose callee starts with RET leaves, after the two steps,
    the caller's frame on top with the register map and the owned
    allocations it had before the CALL (only its instruction index has
    advanced), the frames below, the heap and the output untouched; the
    callee's frame starts with no register and no allocation of its own. *)
Theorem call_ret_preserves_caller m ctx rest i fs ctx1 fp F j fs2 callee :
  stack_ m = ctx :: rest →
  fetch (funcs m) ctx = Some (i, fs, ctx1) →
  op i = OP_code CALL → get i 0 = Some fp → fp ≠ 0 → fs !! fp = Some F →
  fetch fs (new_frame fp F) = Some (j, fs2, callee) →
  op j = OP_code RET →
  let m1 := {| stack_ := new_frame fp F :: ctx1 :: rest; funcs := fs;
               heap := heap m; cerr := cerr m |} in
  let m2 := {| stack_ := ctx1 :: rest; funcs := fs2; heap := heap m; cerr := cerr m |} in
  ExecuteInstruction malloc m = Running m1 ∧
  ExecuteInstruction malloc m1 = Running m2 ∧
  values (new_frame fp F) = ∅ ∧ allocas (new_frame fp F) = ∅ ∧
  values ctx1 = values ctx ∧ allocas ctx1 = allocas ctx ∧
  pc ctx1 = {| f := f (pc ctx); ib := ib (pc ctx); ii := S (ii (pc ctx)) |}.
Proof.
  intros Hs Hf Hop H0 Hfp HF Hf2 Hop2 m1 m2.
  pose proof (fetch_frame _ _ _ _ _ Hf) as Hc.
  pose proof (fetch_frame _ _ _ _ _ Hf2) as Hc2.
  split; [|split].
  - rewrite (step_fetch _ _ _ _ _ _ Hs Hf). unfold dispatch. rewrite Hop. cbn [OP_of OP_code].
    step_case. rewrite decide_False by done. cbn [funcs]. rewrite HF. done.
  - rewrite (step_fetch m1 (new_frame fp F) (ctx1 :: rest) j fs2 callee); [|done|done].
    unfold dispatch. rewrite Hop2. cbn [OP_of OP_code].
    unfold FunctionContext_dtor. subst callee. cbn [set_pc allocas new_frame].
    rewrite map_to_list_empty. done.
  - subst ctx1. done.
Qed.

(** ** Faults *)

(** C8 (amended): an instruction with an unknown opcode, or a CALL whose
    function reference is null, aborts the run at once: the step is a fault,
    the run stops there, and the output is what had been written before.
    A CALL whose reference is not null but is the address of no function is
    not checked: the step raises no fault, it is undefined behaviour. *)
Theorem fault_aborts_run m ctx rest i fs ctx' :
  stack_ m = ctx :: rest →
  fetch (funcs m) ctx = Some (i, fs, ctx') →
  (OP_of (op i) = None ∨ (op i = OP_code CALL ∧ get i 0 = Some 0) →
   ∃ msg m',
     ExecuteInstruction malloc m = Abort msg m' ∧
     cerr m' = cerr m ∧
     ∀ fuel, Execute malloc (S fuel) m = Aborted msg m' ∧
             ∀ fuel', Execute malloc (S fuel') m = Execute malloc (S fuel) m) ∧
  (∀ fp, op i = OP_code CALL → get i 0 = Some fp → fp ≠ 0 → fs !! fp = None →
     ExecuteInstruction malloc m = Undefined ∧
     ¬ is_fault (ExecuteInstruction malloc m) ∧
     ∀ fuel, Execute malloc (S fuel) m = UB).
Proof.
  intros Hs Hf. split.
  - intros Hbad.
    assert (∃ msg, ExecuteInstruction malloc m =
              Abort msg {| stack_ := ctx' :: rest; funcs := fs; heap := heap m; cerr := cerr m |})
      as [msg He].
    { rewrite (step_fetch _ _ _ _ _ _ Hs Hf). unfold dispatch.
      destruct Hbad as [-> | [-> Hg]]; [by eexists|].
      cbn [OP_of OP_code]. step_case. by eexists. }
    exists msg, {| stack_ := ctx' :: rest; funcs := fs; heap := heap m; cerr := cerr m |}.
    split; [done|]. split; [done|].
    assert (∀ fuel, Execute malloc (S fuel) m
              = Aborted msg {| stack_ := ctx' :: rest; funcs := fs; heap := heap m; cerr := cerr m |}) as HE.
    { intros fuel. cbn [Execute]. by rewrite Hs, He. }
    intros fuel. split; [done|]. intros fuel'. by rewrite !HE.
  - intros fp Hop Hg Hfp Hnone.
    assert (ExecuteInstruction malloc m = Undefined) as He.
    { rewrite (step_fetch _ _ _ _ _ _ Hs Hf). unfold dispatch. rewrite Hop.
      cbn [OP_of OP_code]. step_case. rewrite decide_False by done. cbn [funcs].
      by rewrite Hnone. }
    split; [done|]. split; [rewrite He; by intros []|].
    intros fuel. cbn [Execute]. by rewrite Hs, He.
Qed.

(** ** Allocation *)

(** C10: ALLOCA(reg, size) in a frame that already records an allocation
    under reg binds reg to the address returned for the new request but
    leaves the ownership map as it was: the old allocation stays recorded
    under reg and the new one is not recorded (it is released before the
    instruction ends). *)
Theorem alloca_twice_keeps_owner m ctx rest i fs ctx' reg sz old :
  stack_ m = ctx :: rest →
  fetch (funcs m) ctx = Some (i, fs, ctx') →
  op i = OP_code ALLOCA →
  get i 0 = Some reg → get i 1 = Some sz →
  allocas ctx !! reg = Some old →
  let b := malloc (heap m) (to_u64 sz) in
  let top := Assign reg (wrap64 b) ctx' in
  ∃ h',
    ExecuteInstruction malloc m =
      Running {| stack_ := top :: rest; funcs := fs; heap := h'; cerr := cerr m |} ∧
    values top !! reg = Some (wrap64 b) ∧
    allocas top = allocas ctx ∧
    allocas top !! reg = Some old ∧
    (∀ r a, allocas top !! r = Some a → allocas ctx !! r = Some a) ∧
    (b ≠ 0 → blocks h' !! b = None).
Proof.
  intros Hs Hf Hop H0 H1 Hold b top.
  pose proof (fetch_frame _ _ _ _ _ Hf) as Hc.
  assert (allocas top = allocas ctx) as Hal by (subst top ctx'; done).
  assert (∃ h', Alloca_dtor {| base := b; size := to_u64 sz |}
                  (heap_malloc (heap m) b (to_u64 sz)) = Some h'
                ∧ (b ≠ 0 → blocks h' !! b = None)) as (h' & Hd & Hb).
  { unfold Alloca_dtor, heap_malloc, heap_free. cbn [base].
    destruct (decide (b = 0)) as [E|E]; [by eexists|].
    cbn [blocks]. rewrite lookup_insert_eq. eexists. split; [done|].
    intros _. cbn [blocks]. apply lookup_delete_eq. }
  exists h'. split; [|split; [|split; [|split; [|split]]]]; try done.
  - rewrite (step_fetch _ _ _ _ _ _ Hs Hf). unfold dispatch. rewrite Hop. cbn [OP_of OP_code].
    step_case. unfold Allocate. cbn [heap]. fold b. fold top.
    rewrite Hal, Hold. cbn [mbind option_bind]. rewrite Hd. done.
  - subst top. cbn. apply lookup_insert_eq.
  - by rewrite Hal.
  - intros r a. by rewrite Hal.
Qed.

(** ** Release of a frame's allocations *)

Lemma lookup_foldr_delete (c : gmap Z (option Z)) (l : list Z) x :
  foldr (λ a c, delete a c) c l !! x = if decide (x ∈ l) then None else c !! x.
Proof.
  induction l as [|a l IH]; cbn [foldr].
  - rewrite decide_False; [done | apply not_elem_of_nil].
  - rewrite lookup_delete. destruct (decide (a = x)) as [->|Hne].
    + rewrite decide_True; [done | left].
    + rewrite IH. destruct (decide (x ∈ l)).
      * rewrite decide_True; [done | by right].
      * rewrite decide_False; [done|]. rewrite elem_of_cons. intros [->|?]; done.
Qed.

Lemma heap_free_spec h b sz :
  blocks h !! b = Some sz →
  ∃ h', heap_free h b = Some h' ∧
        blocks h' = delete b (blocks h) ∧
        (∀ x, b ≤ x < b + sz → cells h' !! x = None) ∧
        (∀ x, cells h !! x = None → cells h' !! x = None).
Proof.
  intros Hb. unfold heap_free. rewrite Hb. eexists. split; [done|]. cbn [blocks cells].
  split; [done|]. split.
  - intros x Hx. rewrite lookup_foldr_delete, decide_True; [done|].
    apply elem_of_seqZ. lia.
  - intros x Hx. rewrite lookup_foldr_delete. by case_decide.
Qed.

Lemma destroy_allocas_spec l : ∀ h,
  NoDup (filter (λ b, b ≠ 0) (base <$> l)) →
  (∀ a, a ∈ l → base a ≠ 0 → blocks h !! base a = Some (size a)) →
  ∃ h', destroy_allocas l h = Some h' ∧
        (∀ b, blocks h' !! b =
              if decide (b ≠ 0 ∧ b ∈ base <$> l) then None else blocks h !! b) ∧
        (∀ a x, a ∈ l → base a ≠ 0 → base a ≤ x < base a + size a → cells h' !! x = None) ∧
        (∀ x, cells h !! x = None → cells h' !! x = None).
Proof.
  induction l as [|a l IH]; intros h Hnd Hlive; cbn [destroy_allocas].
  - exists h. split; [done|]. split; [|split]; [| |done].
    + intros b. rewrite decide_False; [done|]. intros [_ []%elem_of_nil].
    + intros a x []%elem_of_nil.
  - unfold Alloca_dtor. rewrite fmap_cons, filter_cons in Hnd.
    destruct (decide (base a = 0)) as [E|E].
    + rewrite decide_False in Hnd by (by intros ?).
      cbn [mbind option_bind].
      destruct (IH h Hnd) as (h' & Hd & Hb & Hc & Hk).
      { intros a' ?. apply Hlive. by right. }
      exists h'. split; [done|]. split; [|split]; [| |done].
      * intros b. rewrite Hb, fmap_cons. apply decide_ext.
        rewrite elem_of_cons. intuition congruence.
      * intros a' x [->|Hin]%elem_of_cons ? ?; [done|]. by eapply Hc.
    + rewrite decide_True in Hnd by done. apply NoDup_cons in Hnd as [Hnin Hnd].
      destruct (heap_free_spec h (base a) (size a)) as (h1 & Hf & Hb1 & Hc1 & Hk1).
      { apply Hlive; [left | done]. }
      rewrite Hf. cbn [mbind option_bind].
      destruct (IH h1 Hnd) as (h' & Hd & Hb & Hc & Hk).
      { intros a' Hin Hne. rewrite Hb1, lookup_delete_ne.
        - apply Hlive; [by right | done].
        - intros Heq. apply Hnin. apply list_elem_of_filter. split; [by rewrite Heq|].
          rewrite Heq. by apply list_elem_of_fmap_2. }
      exists h'. split; [done|]. split; [|split].
      * intros b. rewrite Hb, Hb1, fmap_cons.
        destruct (decide (b = base a)) as [->|Hne].
        -- rewrite lookup_delete_eq. rewrite (decide_True (P := _ ∧ _ ∈ _ :: _)); [by case_decide|].
           split; [done | left].
        -- rewrite lookup_delete_ne by done. apply decide_ext.
           rewrite elem_of_cons. intuition congruence.
      * intros a' x [->|Hin]%elem_of_cons ? ?; [by apply Hk, Hc1 | by eapply Hc].
      * intros x Hx. by apply Hk, Hk1.
Qed.

Lemma NoDup_filter_fmap {A B} (g : A → B) (P : B → Prop) `{∀ x, Decision (P x)} (l : list A) :
  NoDup l →
  (∀ x y, x ∈ l → y ∈ l → P (g x) → g x = g y → x = y) →
  NoDup (filter P (g <$> l)).
Proof.
  induction l as [|x l IH]; intros Hnd Hinj; [constructor|].
  apply NoDup_cons in Hnd as [Hx Hnd]. rewrite fmap_cons, filter_cons.
  assert (NoDup (filter P (g <$> l))) as IH'.
  { apply IH; [done|]. intros y z Hy Hz. apply Hinj; by right. }
  case_decide; [|done]. apply NoDup_cons. split; [|done].
  intros [_ [y [Hy Hin]]%list_elem_of_fmap]%list_elem_of_filter.
  apply Hx. rewrite (Hinj x y); [done | left | by right | done | done].
Qed.

Lemma frame_dtor_spec ctx h :
  owns h (allocas ctx) →
  ∃ h', FunctionContext_dtor ctx h = Some h' ∧
        (∀ b, blocks h' !! b =
              if decide (b ≠ 0 ∧ ∃ r a, allocas ctx !! r = Some a ∧ base a = b)
              then None else blocks h !! b) ∧
        (∀ r a x, allocas ctx !! r = Some a → base a ≠ 0 →
                  base a ≤ x < base a + size a → cells h' !! x = None) ∧
        (∀ x, cells h !! x = None → cells h' !! x = None).
Proof.
  intros (H0 & Hlive & Hinj). unfold FunctionContext_dtor.
  destruct (destroy_allocas_spec (map_to_list (allocas ctx)).*2 h) as (h' & Hd & Hb & Hc & Hk).
  - rewrite <- list_fmap_compose. apply NoDup_filter_fmap; [apply NoDup_map_to_list|].
    intros [r1 a1] [r2 a2] H1%elem_of_map_to_list H2%elem_of_map_to_list Hne Heq.
    cbn in *. assert (r1 = r2) as -> by (by eapply Hinj). congruence.
  - intros a [[r a'] [-> Hin%elem_of_map_to_list]]%list_elem_of_fmap ?. by eapply Hlive.
  - exists h'. split; [done|]. split; [|split]; [| |done].
    + intros b. rewrite Hb. apply decide_ext. split.
      * intros [? Hin]. apply list_elem_of_fmap in Hin as [a [-> Hin]].
        apply list_elem_of_fmap in Hin as [[r a'] [-> Hin%elem_of_map_to_list]].
        split; [done|]. by exists r, a'.
      * intros [? (r & a & Hra & <-)]. split; [done|].
        apply list_elem_of_fmap_2, list_elem_of_fmap. exists (r, a). split; [done|].
        by apply elem_of_map_to_list.
    + intros r a x Hra ? ?. eapply Hc; [|done|done].
      apply list_elem_of_fmap. exists (r, a). split; [done|]. by apply elem_of_map_to_list.
Qed.

(** ** Ownership on the states a run reaches *)

Lemma heap_inv_init fs : heap_inv (init fs).
Proof.
  unfold heap_inv, alloc_inv, init. cbn. split; [done|]. split; [|split].
  - intros k al r a H. by rewrite lookup_nil in H.
  - intros k1 k2 al1 al2 r1 r2 a1 a2 H. by rewrite lookup_nil in H.
  - intros b s H. by rewrite lookup_empty in H.
Qed.

Lemma heap_inv_owns m ctx rest :
  heap_inv m → stack_ m = ctx :: rest → owns (heap m) (allocas ctx).
Proof.
  intros (H0 & Hlive & Hinj & _) Hs. rewrite Hs in *. split; [done|]. split.
  - intros r a. by apply (Hlive 0%nat).
  - intros r1 r2 a1 a2 ? ? ? ?.
    by destruct (Hinj 0%nat 0%nat (allocas ctx) (allocas ctx) r1 r2 a1 a2).
Qed.

Lemma alloc_inv_push bl als : alloc_inv bl als → alloc_inv bl (∅ :: als).
Proof.
  intros (H0 & Hlive & Hinj & Hown). split; [done|]. split; [|split].
  - intros [|k] al r a; cbn; [by intros [= <-] | apply Hlive].
  - intros [|k1] [|k2] al1 al2 r1 r2 a1 a2; cbn; try (by intros [= <-]); try (by intros _ [= <-]).
    intros. by destruct (Hinj k1 k2 al1 al2 r1 r2 a1 a2) as [-> ->].
  - intros b s (k & al & r & a & ? & ? & ?)%Hown. by exists (S k), al, r, a.
Qed.

Lemma alloc_inv_pop bl bl' al als :
  alloc_inv bl (al :: als) →
  (∀ b, bl' !! b = if decide (b ≠ 0 ∧ ∃ r a, al !! r = Some a ∧ base a = b)
                   then None else bl !! b) →
  alloc_inv bl' als.
Proof.
  intros (H0 & Hlive & Hinj & Hown) Hb. split; [|split; [|split]].
  - rewrite Hb. by case_decide.
  - intros k al' r a Hk Hr Hne. rewrite Hb, decide_False; [by apply (Hlive (S k) al' r)|].
    intros [_ (r0 & a0 & Hr0 & Hba)].
    destruct (Hinj 0%nat (S k) al al' r0 r a0 a) as [? _]; [done|done|done|done|congruence|done|done].
  - intros k1 k2 al1 al2 r1 r2 a1 a2 ? ? ? ? ? ?.
    destruct (Hinj (S k1) (S k2) al1 al2 r1 r2 a1 a2) as [[= ->] ->]; done.
  - intros b s. rewrite Hb. case_decide as Hdec; [done|].
    intros Hl. destruct (Hown b s Hl) as ([|k] & al' & r & a & Hk & Hr & Hba).
    + cbn in Hk. injection Hk as <-. exfalso. apply Hdec. split; [|by exists r, a].
      intros ->. by rewrite H0 in Hl.
    + by exists k, al', r, a.
Qed.

Lemma alloc_inv_owner_insert (al : gmap Z Alloca) als r a0 k al' r' a' b :
  al !! r = None →
  (al :: als) !! k = Some al' → al' !! r' = Some a' → base a' = b →
  ∃ k2 al2 r2 a2,
    (<[r := a0]> al :: als) !! k2 = Some al2 ∧ al2 !! r2 = Some a2 ∧ base a2 = b.
Proof.
  intros Hr Hk Hr' Hb. destruct k as [|k].
  - cbn in Hk. injection Hk as <-. exists 0%nat, (<[r := a0]> al), r', a'.
    split; [done|]. split; [|done]. rewrite lookup_insert_ne; [done|].
    intros ->. by rewrite Hr in Hr'.
  - by exists (S k), al', r', a'.
Qed.

Lemma alloc_inv_record bl al als r b sz :
  alloc_inv bl (al :: als) → al !! r = None → b ≠ 0 → bl !! b = None →
  alloc_inv (<[b := sz]> bl) (<[r := {| base := b; size := sz |}]> al :: als).
Proof.
  intros (H0 & Hlive & Hinj & Hown) Hr Hb Hfresh.
  assert (∀ k al' r' a', (al :: als) !! k = Some al' → al' !! r' = Some a' → base a' ≠ b) as Hold.
  { intros k al' r' a' Hk Hr' <-. destruct (decide (base a' = 0)) as [E|E]; [done|].
    rewrite (Hlive k al' r' a') in Hfresh; done. }
  split; [by rewrite lookup_insert_ne|]. split; [|split].
  - intros [|k] al' r' a'; cbn.
    + intros [= <-]. rewrite lookup_insert. case_decide as E.
      * intros [= <-] _. cbn. apply lookup_insert_eq.
      * intros Hr' Hne. rewrite lookup_insert_ne; [by apply (Hlive 0%nat al r')|].
        intros Heq. by apply (Hold 0%nat al r' a').
    + intros Hk Hr' Hne. rewrite lookup_insert_ne; [by apply (Hlive (S k) al' r')|].
      intros Heq. by apply (Hold (S k) al' r' a').
  - assert (∀ k al' r' a', (<[r := {| base := b; size := sz |}]> al :: als) !! k = Some al' →
              al' !! r' = Some a' →
              (k = 0%nat ∧ r' = r ∧ base a' = b) ∨
              (∃ al0, (al :: als) !! k = Some al0 ∧ al0 !! r' = Some a' ∧ base a' ≠ b)) as Hcase.
    { intros [|k] al' r' a'; cbn.
      - intros [= <-]. rewrite lookup_insert. case_decide as E.
        + intros [= <-]. left. by subst.
        + intros Hr'. right. exists al. split; [done|]. split; [done|]. by apply (Hold 0%nat al r').
      - intros Hk Hr'. right. exists al'. split; [done|]. split; [done|].
        by apply (Hold (S k) al' r'). }
    intros k1 k2 al1 al2 r1 r2 a1 a2 Hk1 Hk2 Hr1 Hr2 Hne Heq.
    destruct (Hcase _ _ _ _ Hk1 Hr1) as [(-> & -> & E1)|(al1' & Hk1' & Hr1' & E1)],
             (Hcase _ _ _ _ Hk2 Hr2) as [(-> & -> & E2)|(al2' & Hk2' & Hr2' & E2)];
      try done; try congruence.
    by apply (Hinj k1 k2 al1' al2' r1 r2 a1 a2).
  - intros b' s'. rewrite lookup_insert. case_decide as E.
    + intros _. subst b'. exists 0%nat, (<[r := {| base := b; size := sz |}]> al), r,
        {| base := b; size := sz |}. by rewrite lookup_insert_eq.
    + intros Hl. destruct (Hown b' s' Hl) as (k & al' & r' & a' & Hk & Hr' & Hba).
      by apply (alloc_inv_owner_insert al als r {| base := b; size := sz |} k al' r' a' b').
Qed.

Lemma store64_blocks h p v h' : store64 h p v = Some h' → blocks h' = blocks h.
Proof.
  unfold store64. case_decide; [|done].
  destruct (mapM _ _); [|done]. cbn. by intros [= <-].
Qed.

Lemma Allocate_inv reg sz h ctx h' ctx' als :
  malloc_fresh malloc →
  alloc_inv (blocks h) (allocas ctx :: als) →
  Allocate malloc reg sz h ctx = Some (h', ctx') →
  alloc_inv (blocks h') (allocas ctx' :: als).
Proof.
  intros Hfresh Hinv. unfold Allocate. cbn [Assign set_values allocas].
  specialize (Hfresh h sz). set (b := malloc h sz) in *.
  unfold Alloca_dtor, heap_malloc, heap_free. cbn [base].
  destruct (allocas ctx !! reg) eqn:Hreg; destruct (decide (b = 0)) as [E|E]; cbn [blocks mbind option_bind].
  - by intros [= <- <-].
  - rewrite lookup_insert_eq. intros [= <- <-]. cbn [blocks allocas].
    rewrite delete_insert_id; [done | by apply Hfresh].
  - intros [= <- <-]. cbn [set_allocas allocas].
    destruct Hinv as (H0 & Hlive & Hinj & Hown). split; [done|]. split; [|split].
    + intros [|k] al r a; cbn; [|intros ? ? ?; by apply (Hlive (S k) al r a)].
      intros [= <-]. rewrite lookup_insert. case_decide.
      * intros [= <-]. cbn. by intros ?.
      * intros ? ?. by apply (Hlive 0%nat (allocas ctx) r a).
    + assert (∀ k al r a, (<[reg := {| base := b; size := sz |}]> (allocas ctx) :: als) !! k = Some al →
                al !! r = Some a → base a ≠ 0 →
                ∃ al0, (allocas ctx :: als) !! k = Some al0 ∧ al0 !! r = Some a) as Hcase.
      { intros [|k] al r a; cbn; [|by eauto].
        intros [= <-]. rewrite lookup_insert. case_decide.
        - intros [= <-]. cbn. by intros ?.
        - eauto. }
      intros k1 k2 al1 al2 r1 r2 a1 a2 Hk1 Hk2 Hr1 Hr2 Hne Heq.
      destruct (Hcase _ _ _ _ Hk1 Hr1 Hne) as (al1' & ? & ?).
      destruct (Hcase _ _ _ _ Hk2 Hr2) as (al2' & ? & ?); [congruence|].
      by apply (Hinj k1 k2 al1' al2' r1 r2 a1 a2).
    + intros b' s' Hl. destruct (Hown b' s' Hl) as (k & al' & r' & a' & Hk & Hr' & Hba).
      by apply (alloc_inv_owner_insert (allocas ctx) als reg {| base := b; size := sz |} k al' r' a' b').
  - intros [= <- <-]. cbn [set_allocas allocas blocks].
    apply alloc_inv_record; [done | done | done | by apply Hfresh].
Qed.

(** Every step of the engine keeps the ownership invariant. *)
Lemma heap_inv_step m m' :
  malloc_fresh malloc → heap_inv m → ExecuteInstruction malloc m = Running m' → heap_inv m'.
Proof.
  intros Hfresh Hinv. unfold ExecuteInstruction, heap_inv in *.
  destruct (stack_ m) as [|ctx rest] eqn:Hs; [done|].
  destruct (fetch (funcs m) ctx) as [[[i fs] ctx']|] eqn:Hf; [|done].
  pose proof (fetch_frame _ _ _ _ _ Hf) as ->. rewrite fmap_cons in Hinv.
  unfold dispatch, ub. destruct (OP_of (op i)) as [[]|]; [..|done].
  all: repeat match goal with
       | |- context [GetVal ?r ?c] => rewrite (GetVal_eq r c); cbn [values set_values pc allocas]
       | |- context [get ?j ?k] => destruct (get j k); cbn [mbind option_bind default]; [|done]
       end.
  - destruct (Allocate _ _ _ _ _) as [[h c]|] eqn:HA; [|done]. cbn. intros [= <-]. cbn.
    eapply Allocate_inv; [done | | exact HA]. exact Hinv.
  - intros [= <-]. done.
  - intros [= <-]. done.
  - intros [= <-]. done.
  - case_decide; cbn [mbind option_bind default];
      match goal with |- context [get ?j ?k] => destruct (get j k) end; cbn; [|done| |done];
      intros [= <-]; done.
  - case_decide; [done|]. cbn [funcs]. destruct (fs !! _); [|done]. cbn. intros [= <-]. cbn.
    by apply alloc_inv_push.
  - cbn [heap].
    destruct (frame_dtor_spec (set_pc {| f := f (pc ctx); ib := ib (pc ctx); ii := S (ii (pc ctx)) |} ctx) (heap m))
      as (h' & -> & Hb & _).
    { apply (heap_inv_owns m ctx rest); [|done]. unfold heap_inv. by rewrite Hs. }
    cbn. intros [= <-]. cbn. by eapply alloc_inv_pop.
  - intros [= <-]. done.
  - cbn [heap]. destruct (load64 _ _); [|done]. cbn. intros [= <-]. done.
  - cbn [heap]. destruct (store64 _ _ _) eqn:Hst; [|done]. cbn. intros [= <-]. cbn.
    by rewrite (store64_blocks _ _ _ _ Hst).
  - intros [= <-]. done.
Qed.

(** The invariant holds when the engine is entered and along every run. *)
Lemma heap_inv_entry fs fp F :
  heap_inv {| stack_ := [new_frame fp F]; funcs := fs; heap := empty_heap; cerr := [] |}.
Proof. apply (alloc_inv_push ∅ []), heap_inv_init with (fs := fs). Qed.

Lemma heap_inv_Execute fuel : ∀ m m',
  malloc_fresh malloc → heap_inv m → Execute malloc fuel m = Exited m' → heap_inv m'.
Proof.
  induction fuel as [|n IH]; intros m m' Hfresh Hinv; cbn [Execute].
  - destruct (stack_ m); [by intros [= <-] | done].
  - destruct (stack_ m) eqn:Hs; [by intros [= <-]|].
    destruct (ExecuteInstruction malloc m) eqn:He; [|done|done].
    apply IH; [done|]. by eapply heap_inv_step.
Qed.

(** C7: RET releases every allocation of the popped frame within the same
    step: in the state after the pop none of the regions the frame recorded
    is live and none of their bytes is addressable, the regions of the other
    frames are as before, and every region that is still live is recorded
    by one of the remaining frames. *)
Theorem ret_releases_allocas m ctx rest i fs ctx' :
  stack_ m = ctx :: rest →
  fetch (funcs m) ctx = Some (i, fs, ctx') →
  op i = OP_code RET →
  heap_inv m →
  ∃ h',
    ExecuteInstruction malloc m =
      Running {| stack_ := rest; funcs := fs; heap := h'; cerr := cerr m |} ∧
    (∀ r a, allocas ctx !! r = Some a → blocks h' !! base a = None) ∧
    (∀ r a x, allocas ctx !! r = Some a → base a ≠ 0 →
              base a ≤ x < base a + size a → cells h' !! x = None) ∧
    (∀ b, (∀ r a, allocas ctx !! r = Some a → base a ≠ b) →
          blocks h' !! b = blocks (heap m) !! b) ∧
    (∀ b s, blocks h' !! b = Some s →
            ∃ k c r a, rest !! k = Some c ∧ allocas c !! r = Some a ∧ base a = b) ∧
    heap_inv {| stack_ := rest; funcs := fs; heap := h'; cerr := cerr m |}.
Proof.
  intros Hs Hf Hop Hinv.
  pose proof (heap_inv_owns m ctx rest Hinv Hs) as Hown.
  pose proof (fetch_frame _ _ _ _ _ Hf) as Hc.
  destruct (frame_dtor_spec ctx' (heap m)) as (h' & Hd & Hb & Hcl & _).
  { by subst ctx'. }
  assert (allocas ctx' = allocas ctx) as Hal by (by subst ctx').
  rewrite Hal in *.
  assert (heap_inv {| stack_ := rest; funcs := fs; heap := h'; cerr := cerr m |}) as Hinv'.
  { unfold heap_inv in *. rewrite Hs, fmap_cons in Hinv. cbn [heap stack_].
    by eapply alloc_inv_pop. }
  exists h'. split; [|split; [|split; [|split; [|split]]]]; [| | done | | | done].
  - rewrite (step_fetch _ _ _ _ _ _ Hs Hf). unfold dispatch. rewrite Hop. cbn [OP_of OP_code].
    cbn [heap]. rewrite Hd. done.
  - intros r a Hra. rewrite Hb. case_decide as Hdec; [done|].
    destruct (decide (base a = 0)) as [E|E].
    + rewrite E. apply Hown.
    + exfalso. apply Hdec. split; [done|]. by exists r, a.
  - intros b Hnot. rewrite Hb. rewrite decide_False; [done|].
    intros [_ (r & a & Hra & Hba)]. by eapply Hnot.
  - intros b s Hl. destruct Hinv' as (_ & _ & _ & Hrec). cbn [heap stack_] in Hrec.
    destruct (Hrec b s Hl) as (k & al & r & a & Hk & Hr & Hba).
    apply list_lookup_fmap_Some in Hk as (c & -> & Hk). by exists k, c, r, a.
Qed.

End EngineFacts.

(** ** A concrete allocator *)

Lemma bump_malloc_above (bl : gmap Z Z) :
  0 ≤ map_fold (λ b s acc, Z.max acc (b + Z.max s 0)) 0 bl ∧
  ∀ b s, bl !! b = Some s → b ≤ map_fold (λ b s acc, Z.max acc (b + Z.max s 0)) 0 bl.
Proof.
  apply (map_fold_weak_ind (λ r (m : gmap Z Z), 0 ≤ r ∧ ∀ b s, m !! b = Some s → b ≤ r)).
  - split; [done|]. intros b s. by rewrite lookup_empty.
  - intros b s m r Hb [Hr Hm]. split; [lia|].
    intros b' s'. rewrite lookup_insert. case_decide.
    + intros [= <-]. subst. lia.
    + intros H'. specialize (Hm _ _ H'). lia.
Qed.

Lemma bump_malloc_fresh : malloc_fresh bump_malloc.
Proof.
  intros h sz _. unfold bump_malloc.
  destruct (bump_malloc_above (blocks h)) as [H0 Hb].
  destruct (blocks h !! _) as [s|] eqn:E; [|done].
  apply Hb in E. lia.
Qed.

(** ** The specification on concrete machines *)

(** A value stored into an owned region is read back by a load from the
    same address; a load outside every region is undefined. *)
Example store_load_roundtrip :
  (store64 (heap_malloc empty_heap 16 16) 24 (-1024) ≫= λ h, load64 h 24) = Some (-1024) ∧
  load64 (heap_malloc empty_heap 16 16) 16 = None ∧
  store64 (heap_malloc empty_heap 16 16) 32 7 = None.
Proof. vm_compute. done. Qed.

(** What the program of [main] does depends on the word its CALL passes.  A
    null word aborts the run after 4096 has been printed; a word that is not
    the address of a function (an address inside the [Callee] object, say) is
    undefined behaviour at the CALL; only for the callee's own address does
    the run reach the end, printing 4096 and 0. *)
Example main_output :
  ExecuteEntry bump_malloc 8 F_addr (init (main_funcs 0)) =
    Aborted "Unable to resolve function"
      {| stack_ := [ {| allocas := ∅; values := {[ 1 := 1024 ]};
                        pc := {| f := F_addr; ib := 0; ii := 4 |} |} ];
         funcs := main_funcs 0; heap := empty_heap; cerr := [4096] |} ∧
  ExecuteEntry bump_malloc 8 F_addr (init (main_funcs (Callee_addr + 16))) = UB ∧
  ExecuteEntry bump_malloc 8 F_addr (init (main_funcs Callee_addr)) =
    Exited {| stack_ := []; funcs := main_funcs Callee_addr; heap := empty_heap;
              cerr := [4096; 0] |}.
Proof. vm_compute. done. Qed.

Lemma unbound_read_binds_zero_witness :
  values (one_frame ∅ 0) !! 3 = None ∧
  ExecuteInstruction bump_malloc (one_instr (instr DEBUG [3]) ∅) =
    Running {| stack_ := [Assign 3 0 (one_frame ∅ 1)];
               funcs := {[ F_addr := one_func (instr DEBUG [3]) ]};
               heap := empty_heap; cerr := [0] |}.
Proof.
  split; [reflexivity|].
  apply (unbound_read_binds_zero bump_malloc (one_instr (instr DEBUG [3]) ∅)
           (one_frame ∅ 0) [] (instr DEBUG [3]) _ (one_frame ∅ 1) 3);
    reflexivity.
Defined.

Lemma unbound_read_defaults_witness :
  3 ∈ reads (instr DEBUG [3]) ∧
  ¬ is_fault (ExecuteInstruction bump_malloc (one_instr (instr DEBUG [3]) ∅)) ∧
  ExecuteInstruction bump_malloc (one_instr (instr DEBUG [3]) ∅) =
    ExecuteInstruction bump_malloc (bind_zero 3 (one_instr (instr DEBUG [3]) ∅)).
Proof.
  assert (3 ∈ reads (instr DEBUG [3])) as Hr by (vm_compute; left).
  split; [exact Hr|].
  apply (unbound_read_defaults bump_malloc (one_instr (instr DEBUG [3]) ∅)
           (one_frame ∅ 0) [] (instr DEBUG [3])
           {[ F_addr := one_func (instr DEBUG [3]) ]} (one_frame ∅ 1) 3);
    [reflexivity | reflexivity | exact Hr | reflexivity].
Defined.

(** C1, as stated, fails: DEBUG of the never-bound register 3 is an
    ordinary step that prints 0, and the instruction sequence of [main],
    which ends with such a read, runs to completion with the output 4096, 0
    when its CALL is given the callee's address. *)
Lemma unbound_read_is_not_a_fault :
  3 ∈ reads (instr DEBUG [3]) ∧
  values (one_frame ∅ 0) !! 3 = None ∧
  ExecuteInstruction bump_malloc (one_instr (instr DEBUG [3]) ∅) =
    Running {| stack_ := [one_frame {[ 3 := 0 ]} 1];
               funcs := {[ F_addr := one_func (instr DEBUG [3]) ]};
               heap := empty_heap; cerr := [0] |} ∧
  ¬ is_fault (ExecuteInstruction bump_malloc (one_instr (instr DEBUG [3]) ∅)) ∧
  ExecuteEntry bump_malloc 8 F_addr (init (main_funcs Callee_addr)) =
    Exited {| stack_ := []; funcs := main_funcs Callee_addr; heap := empty_heap;
              cerr := [4096; 0] |}.
Proof.
  split; [vm_compute; left|]. split; [reflexivity|]. split; [reflexivity|].
  split; [by intros []|]. vm_compute. reflexivity.
Qed.

Lemma missing_block_undefined_witness :
  basic_blocks_ (one_func (instr RET [])) !! 7 = None ∧
  ExecuteInstruction bump_malloc bad_block_machine = Undefined ∧
  Execute bump_malloc 1 bad_block_machine = UB.
Proof.
  split; [reflexivity|].
  destruct (missing_block_undefined bump_malloc bad_block_machine
              {| allocas := ∅; values := ∅; pc := {| f := F_addr; ib := 7; ii := 0 |} |}
              [] (one_func (instr RET [])))
    as (_ & _ & He & _ & Hr); [reflexivity | reflexivity | reflexivity |].
  split; [exact He | exact (Hr 0%nat)].
Defined.

(** C2, as stated, fails: fetching from block 7 of a function that has only
    block 0 raises no fault (the step is undefined behaviour), and a program
    that branches to such a block ends as undefined behaviour, not as an
    abort. *)
Lemma missing_block_is_not_a_fault :
  basic_blocks_ (one_func (instr RET [])) !! 7 = None ∧
  ¬ is_fault (ExecuteInstruction bump_malloc bad_block_machine) ∧
  (∀ msg m', ExecuteInstruction bump_malloc bad_block_machine ≠ Abort msg m') ∧
  (∀ fuel msg m', Execute bump_malloc fuel bad_block_machine ≠ Aborted msg m') ∧
  ExecuteEntry bump_malloc 3 F_addr (init {[ F_addr := bad_branch_F ]}) = UB.
Proof.
  split; [reflexivity|]. split; [by intros []|]. split; [done|]. split; [|reflexivity].
  intros [|fuel]; done.
Qed.

Lemma cmp_binds_flag_witness :
  ExecuteInstruction bump_malloc (one_instr (instr CMP [9; EQ; 1; 1]) {[ 1 := 5 ]}) =
    Running {| stack_ := [one_frame {[ 1 := 5; 9 := 1 ]} 1];
               funcs := {[ F_addr := one_func (instr CMP [9; EQ; 1; 1]) ]};
               heap := empty_heap; cerr := [] |}.
Proof.
  refine (eq_trans (proj1
    (cmp_binds_flag bump_malloc (one_instr (instr CMP [9; EQ; 1; 1]) {[ 1 := 5 ]})
       (one_frame {[ 1 := 5 ]} 0) [] (instr CMP [9; EQ; 1; 1])
       {[ F_addr := one_func (instr CMP [9; EQ; 1; 1]) ]}
       (one_frame {[ 1 := 5 ]} 1) 9 EQ 1 1
       eq_refl eq_refl eq_refl eq_refl eq_refl eq_refl eq_refl)) _).
  vm_compute. reflexivity.
Defined.

Lemma add_wraps_witness :
  ExecuteInstruction bump_malloc
    (one_instr (instr ADD [3; 1; 2]) {[ 1 := 2 ^ 63 - 1; 2 := 1 ]}) =
    Running {| stack_ := [one_frame {[ 1 := 2 ^ 63 - 1; 2 := 1; 3 := - 2 ^ 63 ]} 1];
               funcs := {[ F_addr := one_func (instr ADD [3; 1; 2]) ]};
               heap := empty_heap; cerr := [] |}.
Proof.
  refine (eq_trans (proj1
    (add_wraps bump_malloc
       (one_instr (instr ADD [3; 1; 2]) {[ 1 := 2 ^ 63 - 1; 2 := 1 ]})
       (one_frame {[ 1 := 2 ^ 63 - 1; 2 := 1 ]} 0) [] (instr ADD [3; 1; 2])
       {[ F_addr := one_func (instr ADD [3; 1; 2]) ]}
       (one_frame {[ 1 := 2 ^ 63 - 1; 2 := 1 ]} 1) 3 1 2
       eq_refl eq_refl eq_refl eq_refl eq_refl eq_refl)) _).
  vm_compute. reflexivity.
Defined.

Lemma br_sets_pc_witness :
  ExecuteInstruction bump_malloc (one_instr (instr BR [1; 7; 8]) {[ 1 := 5 ]}) =
    Running {| stack_ := [ {| allocas := ∅; values := {[ 1 := 5 ]};
                              pc := {| f := F_addr; ib := 7; ii := 0 |} |} ];
               funcs := {[ F_addr := one_func (instr BR [1; 7; 8]) ]};
               heap := empty_heap; cerr := [] |} ∧
  ExecuteInstruction bump_malloc (one_instr (instr BR [1; 7; 8]) {[ 1 := 0 ]}) =
    Running {| stack_ := [ {| allocas := ∅; values := {[ 1 := 0 ]};
                              pc := {| f := F_addr; ib := 8; ii := 0 |} |} ];
               funcs := {[ F_addr := one_func (instr BR [1; 7; 8]) ]};
               heap := empty_heap; cerr := [] |}.
Proof.
  split.
  - refine (eq_trans (proj1
      (br_sets_pc bump_malloc (one_instr (instr BR [1; 7; 8]) {[ 1 := 5 ]})
         (one_frame {[ 1 := 5 ]} 0) [] (instr BR [1; 7; 8])
         {[ F_addr := one_func (instr BR [1; 7; 8]) ]}
         (one_frame {[ 1 := 5 ]} 1) 1 7 8
         eq_refl eq_refl eq_refl eq_refl eq_refl eq_refl)) _).
    vm_compute. reflexivity.
  - refine (eq_trans (proj1
      (br_sets_pc bump_malloc (one_instr (instr BR [1; 7; 8]) {[ 1 := 0 ]})
         (one_frame {[ 1 := 0 ]} 0) [] (instr BR [1; 7; 8])
         {[ F_addr := one_func (instr BR [1; 7; 8]) ]}
         (one_frame {[ 1 := 0 ]} 1) 1 7 8
         eq_refl eq_refl eq_refl eq_refl eq_refl eq_refl)) _).
    vm_compute. reflexivity.
Defined.

Lemma call_ret_preserves_caller_witness :
  ∃ m1 m2,
    ExecuteInstruction bump_malloc call_machine = Running m1 ∧
    ExecuteInstruction bump_malloc m1 = Running m2 ∧
    (values <$> stack_ m1) = [∅; {[ 1 := 1024 ]}] ∧
    (values <$> stack_ m2) = [{[ 1 := 1024 ]}] ∧
    (allocas <$> stack_ m2) = [∅] ∧
    heap m2 = heap call_machine.
Proof.
  pose proof (call_ret_preserves_caller bump_malloc call_machine
    {| allocas := ∅; values := {[ 1 := 1024 ]}; pc := {| f := F_addr; ib := 0; ii := 3 |} |}
    [] (instr CALL [Callee_addr]) (main_funcs Callee_addr)
    {| allocas := ∅; values := {[ 1 := 1024 ]}; pc := {| f := F_addr; ib := 0; ii := 4 |} |}
    Callee_addr main_Callee (instr RET []) (main_funcs Callee_addr)
    {| allocas := ∅; values := ∅; pc := {| f := Callee_addr; ib := 0; ii := 1 |} |}
    eq_refl eq_refl eq_refl eq_refl) as H.
  destruct H as (H1 & H2 & _); [done | reflexivity | reflexivity | reflexivity |].
  eexists _, _. split; [exact H1|]. split; [exact H2|]. repeat split.
Defined.

Lemma owning_machine_inv i : heap_inv (owning_machine i).
Proof.
  assert (∀ k (al : gmap Z Alloca) r a,
            [ ({[ 1 := {| base := 16; size := 16 |} ]} : gmap Z Alloca) ] !! k = Some al →
            al !! r = Some a → k = 0%nat ∧ r = 1 ∧ a = {| base := 16; size := 16 |}) as Hone.
  { intros [|k] al r a; cbn; [|done]. intros [= <-] [<- <-]%lookup_singleton_Some. done. }
  split; [reflexivity|]. split; [|split].
  - intros k al r a Hk Hr _. destruct (Hone k al r a Hk Hr) as (_ & _ & ->). reflexivity.
  - intros k1 k2 al1 al2 r1 r2 a1 a2 Hk1 Hk2 Hr1 Hr2 _ _.
    destruct (Hone _ _ _ _ Hk1 Hr1) as (-> & -> & _).
    by destruct (Hone _ _ _ _ Hk2 Hr2) as (-> & -> & _).
  - change (blocks (heap (owning_machine i))) with ({[ 16 := 16 ]} : gmap Z Z).
    intros b s [<- _]%lookup_singleton_Some.
    by exists 0%nat, {[ 1 := {| base := 16; size := 16 |} ]}, 1, {| base := 16; size := 16 |}.
Qed.

Lemma ret_releases_allocas_witness :
  blocks (heap (owning_machine (instr RET []))) !! 16 = Some 16 ∧
  ∃ h',
    ExecuteInstruction bump_malloc (owning_machine (instr RET [])) =
      Running {| stack_ := []; funcs := {[ F_addr := one_func (instr RET []) ]};
                 heap := h'; cerr := [] |} ∧
    blocks h' !! 16 = None ∧ cells h' !! 20 = None.
Proof.
  split; [reflexivity|].
  destruct (ret_releases_allocas bump_malloc (owning_machine (instr RET []))
    {| allocas := {[ 1 := {| base := 16; size := 16 |} ]}; values := {[ 1 := 16 ]};
       pc := {| f := F_addr; ib := 0; ii := 0 |} |}
    [] (instr RET []) {[ F_addr := one_func (instr RET []) ]}
    {| allocas := {[ 1 := {| base := 16; size := 16 |} ]}; values := {[ 1 := 16 ]};
       pc := {| f := F_addr; ib := 0; ii := 1 |} |}
    eq_refl eq_refl eq_refl (owning_machine_inv (instr RET [])))
    as (h' & He & Hb & Hc & _).
  exists h'. split; [exact He|]. split.
  - apply (Hb 1 {| base := 16; size := 16 |}). reflexivity.
  - apply (Hc 1 {| base := 16; size := 16 |} 20); [reflexivity | cbn; lia | cbn; lia].
Defined.

Lemma fault_aborts_run_witness :
  (∃ msg m', ExecuteInstruction bump_malloc (one_instr {| op := 42; operand := [] |} ∅)
             = Abort msg m' ∧ cerr m' = []) ∧
  (∃ msg m', ExecuteInstruction bump_malloc (one_instr (instr CALL [0]) ∅)
             = Abort msg m' ∧ cerr m' = []) ∧
  ExecuteInstruction bump_malloc (one_instr (instr CALL [Callee_addr + 16]) ∅) = Undefined.
Proof.
  split; [|split].
  - destruct (proj1 (fault_aborts_run bump_malloc (one_instr {| op := 42; operand := [] |} ∅)
      (one_frame ∅ 0) [] {| op := 42; operand := [] |}
      {[ F_addr := one_func {| op := 42; operand := [] |} ]} (one_frame ∅ 1)
      eq_refl eq_refl) (or_introl eq_refl)) as (msg & m' & He & Hc & _).
    by exists msg, m'.
  - destruct (proj1 (fault_aborts_run bump_malloc (one_instr (instr CALL [0]) ∅)
      (one_frame ∅ 0) [] (instr CALL [0])
      {[ F_addr := one_func (instr CALL [0]) ]} (one_frame ∅ 1)
      eq_refl eq_refl) (or_intror (conj eq_refl eq_refl))) as (msg & m' & He & Hc & _).
    by exists msg, m'.
  - refine (proj1 (proj2 (fault_aborts_run bump_malloc
      (one_instr (instr CALL [Callee_addr + 16]) ∅)
      (one_frame ∅ 0) [] (instr CALL [Callee_addr + 16])
      {[ F_addr := one_func (instr CALL [Callee_addr + 16]) ]} (one_frame ∅ 1)
      eq_refl eq_refl) (Callee_addr + 16) eq_refl eq_refl _ eq_refl)).
    vm_compute. discriminate.
Defined.

(** C8, as stated, fails for a function reference that does not resolve
    without being null: a CALL whose operand is the address of no function
    (here an address inside the [Callee] object, the kind of word [main]
    passes) is no fault and does not abort the run; the step is undefined
    behaviour, for the single instruction and for the program of [main]. *)
Lemma unresolved_call_is_not_a_fault :
  ({[ F_addr := one_func (instr CALL [Callee_addr + 16]) ]} : gmap Z Function)
    !! (Callee_addr + 16) = None ∧
  ExecuteInstruction bump_malloc (one_instr (instr CALL [Callee_addr + 16]) ∅) = Undefined ∧
  ¬ is_fault (ExecuteInstruction bump_malloc (one_instr (instr CALL [Callee_addr + 16]) ∅)) ∧
  (∀ fuel msg m',
     Execute bump_malloc fuel (one_instr (instr CALL [Callee_addr + 16]) ∅) ≠ Aborted msg m') ∧
  main_funcs (Callee_addr + 16) !! (Callee_addr + 16) = None ∧
  ExecuteEntry bump_malloc 8 F_addr (init (main_funcs (Callee_addr + 16))) = UB.
Proof.
  split; [reflexivity|]. split; [reflexivity|]. split; [by intros []|].
  split; [|split; [reflexivity | vm_compute; reflexivity]].
  intros [|fuel]; done.
Qed.

Lemma alloca_twice_keeps_owner_witness :
  ∃ top h',
    ExecuteInstruction bump_malloc (owning_machine (instr ALLOCA [1; 8])) =
      Running {| stack_ := [top]; funcs := {[ F_addr := one_func (instr ALLOCA [1; 8]) ]};
                 heap := h'; cerr := [] |} ∧
    values top !! 1 = Some 528 ∧
    allocas top = {[ 1 := {| base := 16; size := 16 |} ]} ∧
    blocks h' !! 528 = None.
Proof.
  destruct (alloca_twice_keeps_owner bump_malloc (owning_machine (instr ALLOCA [1; 8]))
    {| allocas := {[ 1 := {| base := 16; size := 16 |} ]}; values := {[ 1 := 16 ]};
       pc := {| f := F_addr; ib := 0; ii := 0 |} |}
    [] (instr ALLOCA [1; 8]) {[ F_addr := one_func (instr ALLOCA [1; 8]) ]}
    {| allocas := {[ 1 := {| base := 16; size := 16 |} ]}; values := {[ 1 := 16 ]};
       pc := {| f := F_addr; ib := 0; ii := 1 |} |}
    1 8 {| base := 16; size := 16 |} eq_refl eq_refl eq_refl eq_refl eq_refl eq_refl)
    as (h' & He & Hv & Ha & _ & _ & Hb).
  eexists _, h'. split; [exact He|]. split; [exact Hv|]. split; [exact Ha|].
  apply Hb. vm_compute. discriminate.
Defined.

(** * Further properties of the engine *)

(** ** Raw memory *)

Lemma seqZ_8 p : seqZ p 8 = [p; p + 1; p + 2; p + 3; p + 4; p + 5; p + 6; p + 7].
Proof. unfold seqZ. cbn. repeat (apply (f_equal2 (@cons Z)); [lia|]). done. Qed.

Lemma le_sum_bytes u : 0 ≤ u < 2 ^ 64 →
  foldr (λ b acc, b + 256 * acc) 0 ((λ k, (u ≫ (8 * k)) `mod` 256) <$> seqZ 0 8) = u.
Proof.
  intros Hu. change (seqZ 0 8) with [0; 1; 2; 3; 4; 5; 6; 7].
  cbn [fmap list_fmap foldr].
  rewrite !Z.shiftr_div_pow2 by lia.
  change (8 * 0) with 0. change (8 * 1) with 8. change (8 * 2) with 16. change (8 * 3) with 24.
  change (8 * 4) with 32. change (8 * 5) with 40. change (8 * 6) with 48. change (8 * 7) with 56.
  Z.div_mod_to_equations. lia.
Qed.

Lemma wrap64_to_u64 z : wrap64 (to_u64 z) = wrap64 z.
Proof.
  unfold wrap64, to_u64. f_equal. by rewrite Zplus_mod_idemp_l.
Qed.

Lemma to_u64_wrap64 z : to_u64 (wrap64 z) = to_u64 z.
Proof. apply wrap64_congr. Qed.

Lemma of_bytes_bytes_of v : of_bytes (bytes_of v) = wrap64 v.
Proof.
  unfold of_bytes, bytes_of. rewrite le_sum_bytes; [apply wrap64_to_u64|].
  unfold to_u64. apply Z.mod_pos_bound. lia.
Qed.

Lemma store64_spec h p v h' :
  store64 h p v = Some h' →
  p `mod` 8 = 0 ∧ blocks h' = blocks h ∧
  mapM (λ a, mjoin (cells h' !! a)) (seqZ p 8) = Some (bytes_of v) ∧
  (∀ x, ¬ (p ≤ x < p + 8) → cells h' !! x = cells h !! x) ∧
  (∀ x, is_Some (cells h' !! x) ↔ is_Some (cells h !! x)).
Proof.
  unfold store64, bytes_of. change (seqZ 0 8) with [0; 1; 2; 3; 4; 5; 6; 7].
  case_decide as Hal; [|done].
  destruct (mapM _ _) as [old|] eqn:Hold; [|done]. cbn [mbind option_bind].
  rewrite seqZ_8. cbn [fmap list_fmap zip zip_with foldr fst snd].
  intros [= <-]. cbn [blocks cells]. split; [done|]. split; [done|].
  assert (∀ x, p ≤ x < p + 8 → is_Some (cells h !! x)) as Hin.
  { intros x Hx. apply mapM_Some_1 in Hold.
    assert (x ∈ seqZ p 8) as Hel by (apply elem_of_seqZ; lia).
    apply list_elem_of_lookup in Hel as [k Hk].
    destruct (Forall2_lookup_l _ _ _ _ _ Hold Hk) as (y & _ & Hy). by rewrite Hy. }
  split; [|split].
  - cbn [mapM]. repeat (rewrite ?lookup_insert_eq, ?(lookup_insert_ne _ _ _ _) by lia;
                        cbn [mjoin option_join mbind option_bind fmap option_fmap option_map]).
    done.
  - intros x Hx. rewrite !lookup_insert_ne by lia. done.
  - intros x. destruct (decide (p ≤ x < p + 8)) as [Hx|Hx].
    + split; [intros _; by apply Hin|]. intros _.
      assert (x = p ∨ x = p + 1 ∨ x = p + 2 ∨ x = p + 3 ∨ x = p + 4 ∨ x = p + 5
              ∨ x = p + 6 ∨ x = p + 7) as Hc by lia.
      repeat (destruct Hc as [->|Hc];
              [rewrite ?(lookup_insert_ne _ _ _ _) by lia; rewrite lookup_insert_eq; by eexists|]).
      subst. rewrite ?(lookup_insert_ne _ _ _ _) by lia. rewrite lookup_insert_eq. by eexists.
    + by rewrite !lookup_insert_ne by lia.
Qed.

Lemma load64_ext h h' q :
  (∀ x, q ≤ x < q + 8 → cells h' !! x = cells h !! x) → load64 h' q = load64 h q.
Proof.
  intros Hx. unfold load64. case_decide; [|done]. rewrite seqZ_8. cbn [mapM].
  by rewrite !Hx by lia.
Qed.

Lemma store_then_load_aux h p v h' :
  store64 h p v = Some h' → load64 h' p = Some (wrap64 v).
Proof.
  intros (Hal & _ & Hbytes & _)%store64_spec.
  unfold load64. rewrite decide_True by done. rewrite Hbytes. cbn.
  by rewrite of_bytes_bytes_of.
Qed.

(** X4: a value written with [*p = v] is the value a later [*p] reads, the
    write changes no other 8-byte slot that does not overlap it, and it
    neither creates nor releases memory. *)
Theorem store_then_load h p v h' :
  store64 h p v = Some h' →
  load64 h' p = Some (wrap64 v) ∧
  (is_int64 v → load64 h' p = Some v) ∧
  (∀ q, q + 8 ≤ p ∨ p + 8 ≤ q → load64 h' q = load64 h q) ∧
  blocks h' = blocks h ∧
  (∀ x, is_Some (cells h' !! x) ↔ is_Some (cells h !! x)).
Proof.
  intros Hst. pose proof (store_then_load_aux _ _ _ _ Hst) as Hl.
  apply store64_spec in Hst as (Hal & Hbl & Hbytes & Hother & Hdom).
  split; [done|]. split; [intros Hv; by rewrite Hl, wrap64_id|]. split; [|done].
  intros q Hq. apply load64_ext. intros x Hx. apply Hother. lia.
Qed.

Lemma heap_malloc_cells h b sz x :
  b ≠ 0 → b ≤ x < b + sz → cells (heap_malloc h b sz) !! x = Some None.
Proof.
  intros Hb Hx. unfold heap_malloc. rewrite decide_False by done. cbn [cells].
  assert (x ∈ seqZ b sz) as Hel by (apply elem_of_seqZ; lia).
  induction (seqZ b sz) as [|a l IH]; [by apply elem_of_nil in Hel|].
  cbn [foldr]. destruct (decide (a = x)) as [->|Hne]; [apply lookup_insert_eq|].
  rewrite lookup_insert_ne by done. apply IH.
  apply elem_of_cons in Hel as [->|]; done.
Qed.

Lemma store64_defined h p v :
  p `mod` 8 = 0 → (∀ x, p ≤ x < p + 8 → is_Some (cells h !! x)) →
  is_Some (store64 h p v).
Proof.
  intros Hal Hin. unfold store64. rewrite decide_True by done. rewrite seqZ_8. cbn [mapM].
  destruct (Hin p) as [? ->]; [lia|]. destruct (Hin (p + 1)) as [? ->]; [lia|].
  destruct (Hin (p + 2)) as [? ->]; [lia|]. destruct (Hin (p + 3)) as [? ->]; [lia|].
  destruct (Hin (p + 4)) as [? ->]; [lia|]. destruct (Hin (p + 5)) as [? ->]; [lia|].
  destruct (Hin (p + 6)) as [? ->]; [lia|]. destruct (Hin (p + 7)) as [? ->]; [lia|].
  cbn. by eexists.
Qed.

Lemma access_unmapped h p :
  cells h !! p = None → load64 h p = None ∧ ∀ v, store64 h p v = None.
Proof.
  intros Hp. unfold load64, store64. split; [|intros v]; case_decide; try done;
    rewrite seqZ_8; cbn [mapM]; by rewrite Hp.
Qed.

Lemma ptr_roundtrip b : 0 ≤ b < 2 ^ 64 → to_u64 (wrap64 b) = b.
Proof. intros Hb. rewrite to_u64_wrap64. unfold to_u64. apply Z.mod_small. lia. Qed.


Section EngineLaws.

Variable malloc : Heap → Z → Z.

(** ** What a step leaves alone *)

Lemma fetch_funcs fs ctx i fs' ctx' :
  fetch fs ctx = Some (i, fs', ctx') → fs' = fs.
Proof.
  unfold fetch, map_index. destruct (fs !! f (pc ctx)) as [F|] eqn:HF; [|done].
  cbn [mbind option_bind].
  destruct (basic_blocks_ F !! ib (pc ctx)) as [bb|] eqn:Hb.
  - destruct (body_ bb !! ii (pc ctx)); [|done]. cbn. intros [= _ <- _].
    destruct F. by apply insert_id.
  - cbn. by rewrite lookup_nil.
Qed.

Lemma step_inv m m' :
  ExecuteInstruction malloc m = Running m' →
  ∃ ctx rest i ctx',
    stack_ m = ctx :: rest ∧
    fetch (funcs m) ctx = Some (i, funcs m, ctx') ∧
    dispatch malloc i ctx' rest
      {| stack_ := ctx' :: rest; funcs := funcs m; heap := heap m; cerr := cerr m |}
    = Running m'.
Proof.
  unfold ExecuteInstruction. destruct (stack_ m) as [|ctx rest]; [done|].
  destruct (fetch (funcs m) ctx) as [[[i fs] ctx']|] eqn:Hf; [|done].
  pose proof (fetch_funcs _ _ _ _ _ Hf) as ->. intros Hd. by exists ctx, rest, i, ctx'.
Qed.

Ltac dispatch_cases :=
  repeat match goal with
  | |- context [GetVal ?r ?c] => rewrite (GetVal_eq r c); cbn [values set_values pc allocas]
  | |- context [get ?j ?k] => destruct (get j k); cbn [mbind option_bind default]; [|done]
  | |- context [if decide ?P then _ else _] => destruct (decide P); cbn [mbind option_bind default]
  | |- context [Allocate ?g ?r ?s ?h ?c] =>
      destruct (Allocate g r s h c) as [[??]|]; cbn [mbind option_bind default]; [|done]
  | |- context [load64 ?h ?p] => destruct (load64 h p); cbn [mbind option_bind default]; [|done]
  | |- context [store64 ?h ?p ?v] => destruct (store64 h p v); cbn [mbind option_bind default]; [|done]
  | |- context [FunctionContext_dtor ?c ?h] =>
      destruct (FunctionContext_dtor c h); cbn [mbind option_bind default]; [|done]
  | |- context [funcs ?M !! ?k] => destruct (funcs M !! k); cbn [mbind option_bind default]; [|done]
  end.

Lemma Allocate_frame reg sz h ctx h' ctx' :
  Allocate malloc reg sz h ctx = Some (h', ctx') →
  pc ctx' = pc ctx ∧ values ctx' = <[reg := wrap64 (malloc h sz)]> (values ctx).
Proof.
  unfold Allocate. cbn [Assign set_values allocas].
  destruct (allocas ctx !! reg).
  - destruct (Alloca_dtor _ _); [|done]. cbn. by intros [= _ <-].
  - by intros [= _ <-].
Qed.


Lemma dispatch_Abort i ctx rest M msg m' :
  dispatch malloc i ctx rest M = Abort msg m' → m' = with_top M ctx rest.
Proof.
  unfold dispatch, ub. destruct (OP_of (op i)) as [[]|]; [..|by intros [= _ <-]].
  all: dispatch_cases; try done.
  by intros [= _ <-].
Qed.

Lemma step_Abort_inv m msg m' :
  ExecuteInstruction malloc m = Abort msg m' →
  funcs m' = funcs m ∧ heap m' = heap m ∧ cerr m' = cerr m ∧
  length (stack_ m') = length (stack_ m).
Proof.
  unfold ExecuteInstruction. destruct (stack_ m) as [|ctx rest]; [done|].
  destruct (fetch (funcs m) ctx) as [[[i fs] ctx']|] eqn:Hf; [|done].
  pose proof (fetch_funcs _ _ _ _ _ Hf) as ->.
  intros ->%dispatch_Abort. done.
Qed.

(** A property kept by every step that does not run into undefined
    behaviour holds of whatever state a run stops in. *)
Lemma Execute_invariant (P : Machine → Prop) :
  (∀ a b, P a → ExecuteInstruction malloc a = Running b → P b) →
  (∀ a msg b, P a → ExecuteInstruction malloc a = Abort msg b → P b) →
  ∀ fuel m, P m →
    match Execute malloc fuel m with
    | Exited m' | Aborted _ m' | Timeout m' => P m'
    | UB => True
    end.
Proof.
  intros Hrun Habort. induction fuel as [|n IH]; intros m Hm; cbn [Execute].
  - by destruct (stack_ m).
  - destruct (stack_ m); [done|].
    destruct (ExecuteInstruction malloc m) eqn:He; [|by eapply Habort|done].
    apply IH. by eapply Hrun.
Qed.

Lemma Execute_Exited_empty fuel : ∀ m m',
  Execute malloc fuel m = Exited m' → stack_ m' = [].
Proof.
  induction fuel as [|n IH]; intros m m'; cbn [Execute].
  - destruct (stack_ m) eqn:Hs; [by intros [= <-] | done].
  - destruct (stack_ m) eqn:Hs; [by intros [= <-]|].
    destruct (ExecuteInstruction malloc m); [apply IH | done | done].
Qed.


Lemma dispatch_output i ctx rest M m' :
  dispatch malloc i ctx rest M = Running m' →
  (OP_of (op i) = Some DEBUG ∧
   ∃ r, get i 0 = Some r ∧ cerr m' = cerr M ++ [read (values ctx) r]) ∨
  (OP_of (op i) ≠ Some DEBUG ∧ cerr m' = cerr M).
Proof.
  unfold dispatch, ub. destruct (OP_of (op i)) as [[]|]; [..|done].
  11: { destruct (get i 0) as [r|]; [|done]. cbn [mbind option_bind].
        rewrite GetVal_eq. cbn. intros [= <-]. left. split; [done|]. by exists r. }
  1: { destruct (get i 0); [|done]. destruct (get i 1); [|done]. cbn [mbind option_bind].
       destruct (Allocate _ _ _ _ _) as [[h c]|]; [|done]. cbn. intros [= <-]. by right. }
  all: dispatch_cases; try done.
  all: intros [= <-]; by right.
Qed.

(** X2: output is only ever appended to.  A step that fetches DEBUG appends
    exactly one value, the value of its register, and a step that fetches
    any other instruction leaves the output as it is; a step that aborts
    writes nothing; so the output in the state a run stops in (exit, abort,
    or out of fuel) extends the output the run started with. *)
Theorem output_only_grows :
  (∀ m ctx rest i fs ctx' m',
     stack_ m = ctx :: rest →
     fetch (funcs m) ctx = Some (i, fs, ctx') →
     ExecuteInstruction malloc m = Running m' →
     (OP_of (op i) = Some DEBUG ∧
      ∃ r, get i 0 = Some r ∧ cerr m' = cerr m ++ [read (values ctx) r]) ∨
     (OP_of (op i) ≠ Some DEBUG ∧ cerr m' = cerr m)) ∧
  (∀ m msg m', ExecuteInstruction malloc m = Abort msg m' → cerr m' = cerr m) ∧
  (∀ fuel m m',
     Execute malloc fuel m = Exited m' ∨
     (∃ msg, Execute malloc fuel m = Aborted msg m') ∨
     Execute malloc fuel m = Timeout m' →
     cerr m `prefix_of` cerr m').
Proof.
  assert (∀ m ctx rest i fs ctx' m',
     stack_ m = ctx :: rest →
     fetch (funcs m) ctx = Some (i, fs, ctx') →
     ExecuteInstruction malloc m = Running m' →
     (OP_of (op i) = Some DEBUG ∧
      ∃ r, get i 0 = Some r ∧ cerr m' = cerr m ++ [read (values ctx) r]) ∨
     (OP_of (op i) ≠ Some DEBUG ∧ cerr m' = cerr m)) as Hstep.
  { intros m ctx rest i fs ctx' m' Hs Hf He.
    rewrite (step_fetch _ _ _ _ _ _ _ Hs Hf) in He.
    apply dispatch_output in He. cbn [cerr] in He.
    by rewrite (fetch_frame _ _ _ _ _ Hf) in He. }
  split; [exact Hstep|]. split.
  { intros m msg m' He. by destruct (step_Abort_inv m msg m' He) as (_ & _ & -> & _). }
  intros fuel m m' H.
  assert (match Execute malloc fuel m with
          | Exited m' | Aborted _ m' | Timeout m' => cerr m `prefix_of` cerr m'
          | UB => True
          end) as Hr.
  { apply (Execute_invariant (λ a, cerr m `prefix_of` cerr a)); [| |done].
    - intros a b Ha Hs. destruct (step_inv a b Hs) as (ctx & rest & i & ctx' & Hst & Hf & _).
      destruct (Hstep a ctx rest i _ ctx' b Hst Hf Hs) as [(_ & r & _ & ->)|[_ ->]].
      + etrans; [done|]. by apply prefix_app_r.
      + done.
    - intros a msg b Ha Hs. destruct (step_Abort_inv a msg b Hs) as (_ & _ & -> & _). done. }
  destruct H as [H|[[msg H]|H]]; by rewrite H in Hr.
Qed.

(** X3: a run of an engine that starts with no frame and an empty heap, with
    an allocator that returns fresh addresses, ends only with the stack
    empty and every allocation released: no region is live at exit. *)
Theorem exit_leaves_no_allocation fuel fp fs m' :
  malloc_fresh malloc →
  ExecuteEntry malloc fuel fp (init fs) = Exited m' →
  stack_ m' = [] ∧ blocks (heap m') = ∅.
Proof.
  intros Hfresh. unfold ExecuteEntry, init. cbn [funcs stack_ heap cerr].
  destruct (fs !! fp) as [F|]; [|done]. intros He.
  pose proof (Execute_Exited_empty _ _ _ He) as Hs. split; [done|].
  pose proof (heap_inv_Execute malloc _ _ _ Hfresh (heap_inv_entry fs fp F) He) as (_ & _ & _ & Hrec).
  apply map_eq. intros b. rewrite lookup_empty.
  destruct (blocks (heap m') !! b) as [s|] eqn:Hb; [|done].
  destruct (Hrec b s Hb) as (k & al & _ & _ & Hk & _). by rewrite Hs in Hk.
Qed.

(** ** Fetch and operands *)

Lemma fetch_at fs ctx F bb i :
  fs !! f (pc ctx) = Some F →
  basic_blocks_ F !! ib (pc ctx) = Some bb →
  body_ bb !! ii (pc ctx) = Some i →
  fetch fs ctx
  = Some (i, fs, set_pc {| f := f (pc ctx); ib := ib (pc ctx); ii := S (ii (pc ctx)) |} ctx).
Proof.
  intros HF Hb Hi. unfold fetch, map_index. rewrite HF. cbn [mbind option_bind].
  rewrite Hb, Hi. cbn. destruct F. by rewrite insert_id.
Qed.

Lemma Execute_step n m m' :
  ExecuteInstruction malloc m = Running m' → Execute malloc (S n) m = Execute malloc n m'.
Proof.
  intros He. cbn [Execute]. rewrite He.
  destruct (stack_ m) eqn:Hs; [|done]. unfold ExecuteInstruction in He. by rewrite Hs in He.
Qed.

(** X5: execution does not fall through the end of a basic block: with the
    instruction index at or past the end of the current block (an empty
    block included) the step is undefined, whether or not a caller is
    waiting below and whatever other blocks the function has. *)
Theorem block_end_undefined m ctx rest F bb :
  stack_ m = ctx :: rest →
  funcs m !! f (pc ctx) = Some F →
  basic_blocks_ F !! ib (pc ctx) = Some bb →
  (length (body_ bb) ≤ ii (pc ctx))%nat →
  ExecuteInstruction malloc m = Undefined ∧
  ∀ fuel, Execute malloc (S fuel) m = UB.
Proof.
  intros Hs HF Hb Hlen.
  assert (ExecuteInstruction malloc m = Undefined) as He.
  { unfold ExecuteInstruction, fetch, map_index. rewrite Hs, HF. cbn [mbind option_bind].
    rewrite Hb. by rewrite (lookup_ge_None_2 _ _ Hlen). }
  split; [done|]. intros fuel. cbn [Execute]. by rewrite Hs, He.
Qed.

(** X6: an instruction that carries fewer operands than its opcode reads is
    undefined behaviour, never a reported fault: this holds for every known
    opcode (RET reads none). *)
Theorem short_operands_undefined i o ctx rest M :
  OP_of (op i) = Some o →
  (length (operand i) < needed o)%nat →
  dispatch malloc i ctx rest M = Undefined.
Proof.
  intros Ho Hlen. unfold dispatch, ub, get. rewrite Ho.
  destruct (operand i) as [|a [|b [|c [|d l]]]];
    destruct o; cbn [needed arity length] in Hlen; try lia;
    cbn [lookup list_lookup mbind option_bind default];
    repeat (rewrite GetVal_eq; cbn [values set_values pc allocas lookup list_lookup
                                     mbind option_bind default]);
    try done; by case_decide.
Qed.

(** X7: operands beyond those the opcode reads are ignored: an instruction
    behaves as the one cut down to the operands of its opcode. *)
Theorem extra_operands_ignored i o ctx rest M :
  OP_of (op i) = Some o →
  dispatch malloc {| op := op i; operand := take (arity o) (operand i) |} ctx rest M
  = dispatch malloc i ctx rest M.
Proof.
  intros Ho. unfold dispatch, get. cbn [op operand]. rewrite Ho.
  destruct o; cbn [arity]; rewrite ?lookup_take_lt by lia; done.
Qed.

(** ** Straight-line code *)

Lemma touch_bound r v vs : vs !! r = Some v → touch r vs = vs.
Proof. unfold touch. by intros ->. Qed.

Lemma imm_debug_pair m ctx rest F bb r v n :
  stack_ m = ctx :: rest →
  funcs m !! f (pc ctx) = Some F →
  basic_blocks_ F !! ib (pc ctx) = Some bb →
  body_ bb !! ii (pc ctx) = Some (instr IMM [r; v]) →
  body_ bb !! S (ii (pc ctx)) = Some (instr DEBUG [r]) →
  Execute malloc (S (S n)) m =
    Execute malloc n
      {| stack_ := {| allocas := allocas ctx; values := <[r := v]> (values ctx);
                      pc := {| f := f (pc ctx); ib := ib (pc ctx); ii := S (S (ii (pc ctx))) |} |}
                   :: rest;
         funcs := funcs m; heap := heap m; cerr := cerr m ++ [v] |}.
Proof.
  intros Hs HF Hb Hi Hj.
  rewrite (Execute_step _ m
    {| stack_ := {| allocas := allocas ctx; values := <[r := v]> (values ctx);
                    pc := {| f := f (pc ctx); ib := ib (pc ctx); ii := S (ii (pc ctx)) |} |}
                 :: rest;
       funcs := funcs m; heap := heap m; cerr := cerr m |}).
  2: { rewrite (step_fetch _ _ _ _ _ _ _ Hs (fetch_at _ _ _ _ _ HF Hb Hi)). done. }
  apply Execute_step.
  erewrite step_fetch; [|done|by apply (fetch_at _ _ F bb)].
  unfold dispatch. cbn [instr op OP_code OP_of get operand lookup list_lookup mbind option_bind].
  rewrite GetVal_eq. cbn [values set_values pc set_pc allocas f ib ii ub default cerr heap funcs].
  rewrite (touch_bound r v) by apply lookup_insert_eq.
  unfold read. by rewrite lookup_insert_eq.
Qed.

Lemma imm_debug_cons r v l :
  imm_debug ((r, v) :: l) = instr IMM [r; v] :: instr DEBUG [r] :: imm_debug l.
Proof. done. Qed.

Lemma imm_debug_length l : length (imm_debug l) = (2 * length l)%nat.
Proof. induction l as [|[r v] l IH]; [done|]. rewrite imm_debug_cons. cbn. lia. Qed.

Lemma imm_debug_run l : ∀ m ctx rest F bb pre post n,
  stack_ m = ctx :: rest →
  funcs m !! f (pc ctx) = Some F →
  basic_blocks_ F !! ib (pc ctx) = Some bb →
  body_ bb = pre ++ imm_debug l ++ post →
  ii (pc ctx) = length pre →
  Execute malloc (2 * length l + n) m =
    Execute malloc n
      {| stack_ := {| allocas := allocas ctx; values := bind_all l (values ctx);
                      pc := {| f := f (pc ctx); ib := ib (pc ctx);
                               ii := (length pre + 2 * length l)%nat |} |} :: rest;
         funcs := funcs m; heap := heap m; cerr := cerr m ++ l.*2 |}.
Proof.
  induction l as [|[r v] l IH]; intros m ctx rest F bb pre post n Hs HF Hb Hbody Hii.
  - change (2 * length [] + n)%nat with n. f_equal.
    destruct m as [st fs h out], ctx as [al vs [pf pb pi]]. cbn in *. subst st pi.
    rewrite app_nil_r, Nat.add_0_r. done.
  - rewrite imm_debug_cons, <- !app_comm_cons in Hbody.
    replace (2 * length ((r, v) :: l) + n)%nat with (S (S (2 * length l + n))) by (cbn; lia).
    rewrite (imm_debug_pair m ctx rest F bb r v); [|done|done|done| |].
    2: { rewrite Hbody, Hii. by apply list_lookup_middle. }
    2: { rewrite Hbody, Hii, (cons_middle (instr IMM [r; v])), app_assoc.
         apply list_lookup_middle. rewrite length_app. cbn. lia. }
    erewrite (IH _ _ rest F bb (pre ++ [instr IMM [r; v]; instr DEBUG [r]]) post n);
      [|done|done|done| |].
    + cbn [stack_ funcs heap cerr allocas values pc f ib ii bind_all foldl fst snd fmap list_fmap].
      rewrite length_app, <- app_assoc. cbn [length app].
      replace (length pre + 2 + 2 * length l)%nat with (length pre + 2 * S (length l))%nat by lia.
      done.
    + cbn [pc f ib ii]. rewrite Hbody, <- app_assoc. done.
    + cbn [pc ii]. rewrite length_app, Hii. cbn. lia.
Qed.

(** X8: a straight-line stretch of IMM/DEBUG pairs prints its literals in
    program order: after two steps per pair the output has grown by exactly
    the literals, each register holds the last literal loaded into it, the
    index stands right after the stretch, and nothing else has changed. *)
Theorem imm_debug_prints_literals l : ∀ m ctx rest F bb pre post n,
  stack_ m = ctx :: rest →
  funcs m !! f (pc ctx) = Some F →
  basic_blocks_ F !! ib (pc ctx) = Some bb →
  body_ bb = pre ++ imm_debug l ++ post →
  ii (pc ctx) = length pre →
  Execute malloc (2 * length l + n) m =
    Execute malloc n
      {| stack_ := {| allocas := allocas ctx; values := bind_all l (values ctx);
                      pc := {| f := f (pc ctx); ib := ib (pc ctx);
                               ii := (length pre + 2 * length l)%nat |} |} :: rest;
         funcs := funcs m; heap := heap m; cerr := cerr m ++ l.*2 |}.
Proof. apply imm_debug_run. Qed.

(** ** Allocation and raw accesses through registers *)

(** X9: the first ALLOCA on a register records the new region under that
    register, binds the register to its address and makes the region live
    with the requested size; every aligned 8-byte slot inside the region can
    then be written through the register's value.  When [malloc] returns
    null nothing is raised: the register is bound to 0, a null entry is
    recorded and the heap is as before. *)
Theorem alloca_records_region m ctx rest i fs ctx' reg sz :
  stack_ m = ctx :: rest →
  fetch (funcs m) ctx = Some (i, fs, ctx') →
  op i = OP_code ALLOCA →
  get i 0 = Some reg → get i 1 = Some sz →
  allocas ctx !! reg = None →
  let b := malloc (heap m) (to_u64 sz) in
  let h' := heap_malloc (heap m) b (to_u64 sz) in
  let top := set_allocas (<[reg := {| base := b; size := to_u64 sz |}]> (allocas ctx))
               (Assign reg (wrap64 b) ctx') in
  ExecuteInstruction malloc m =
    Running {| stack_ := top :: rest; funcs := fs; heap := h'; cerr := cerr m |} ∧
  values top !! reg = Some (wrap64 b) ∧
  allocas top !! reg = Some {| base := b; size := to_u64 sz |} ∧
  (b = 0 → h' = heap m ∧ values top !! reg = Some 0) ∧
  (b ≠ 0 → blocks h' !! b = Some (to_u64 sz)) ∧
  (0 < b < 2 ^ 64 → ∀ k v, 0 ≤ k → k + 8 ≤ to_u64 sz → (b + k) `mod` 8 = 0 →
     is_Some (store64 h' (to_u64 (wrap64 b) + k) v)).
Proof.
  intros Hs Hf Hop H0 H1 Hnone b h' top.
  pose proof (fetch_frame _ _ _ _ _ Hf) as Hc.
  split; [|split; [|split; [|split; [|split]]]].
  - rewrite (step_fetch _ _ _ _ _ _ _ Hs Hf). unfold dispatch. rewrite Hop. cbn [OP_of OP_code].
    rewrite H0, H1. cbn [mbind option_bind]. unfold Allocate. cbn [heap]. fold b.
    subst ctx'. cbn [Assign set_values set_pc allocas]. rewrite Hnone. done.
  - subst top. cbn. apply lookup_insert_eq.
  - subst top. cbn. apply lookup_insert_eq.
  - intros E. subst top h'. rewrite E. unfold heap_malloc. rewrite decide_True by done.
    split; [done|]. cbn. apply lookup_insert_eq.
  - intros E. subst h'. unfold heap_malloc. rewrite decide_False by done. cbn.
    apply lookup_insert_eq.
  - intros Hb k v Hk Hk8 Hal. rewrite ptr_roundtrip by lia.
    apply store64_defined; [done|]. intros x Hx.
    subst h'. rewrite heap_malloc_cells; [by eexists | lia | lia].
Qed.

(** X10: after a repeated ALLOCA on a register that already records an
    allocation, the address the register now holds is dangling: the region
    it names was released inside the instruction, so a LOAD or STORE through
    it is undefined. *)
Theorem alloca_twice_dangles m ctx rest i fs ctx' reg sz old m' :
  stack_ m = ctx :: rest →
  fetch (funcs m) ctx = Some (i, fs, ctx') →
  op i = OP_code ALLOCA →
  get i 0 = Some reg → get i 1 = Some sz →
  allocas ctx !! reg = Some old →
  0 < malloc (heap m) (to_u64 sz) < 2 ^ 64 →
  0 < to_u64 sz →
  ExecuteInstruction malloc m = Running m' →
  ∃ top,
    stack_ m' = top :: rest ∧
    load64 (heap m') (to_u64 (read (values top) reg)) = None ∧
    ∀ v, store64 (heap m') (to_u64 (read (values top) reg)) v = None.
Proof.
  intros Hs Hf Hop H0 H1 Hold Hb Hsz.
  pose proof (fetch_frame _ _ _ _ _ Hf) as Hc.
  rewrite (step_fetch _ _ _ _ _ _ _ Hs Hf). unfold dispatch. rewrite Hop. cbn [OP_of OP_code].
  rewrite H0, H1. cbn [mbind option_bind]. unfold Allocate. cbn [heap].
  set (b := malloc (heap m) (to_u64 sz)) in *.
  subst ctx'. cbn [Assign set_values set_pc allocas]. rewrite Hold.
  unfold Alloca_dtor, heap_malloc, heap_free. cbn [base].
  rewrite !decide_False by lia. cbn [blocks cells]. rewrite lookup_insert_eq.
  cbn [mbind option_bind ub default]. intros [= <-]. eexists. split; [done|].
  cbn [heap]. unfold read, Assign, set_values. cbn [values].
  rewrite lookup_insert_eq. cbn [default id].
  rewrite ptr_roundtrip by lia.
  apply access_unmapped. cbn [cells]. rewrite lookup_foldr_delete, decide_True; [done|].
  apply elem_of_seqZ. lia.
Qed.

(** X11: use after return: once RET has popped a frame, a LOAD or STORE at
    any address inside a region that frame owned is undefined, whoever
    still holds the address. *)
Theorem use_after_return_undefined m ctx rest i fs ctx' m' r a p :
  stack_ m = ctx :: rest →
  fetch (funcs m) ctx = Some (i, fs, ctx') →
  op i = OP_code RET →
  heap_inv m →
  ExecuteInstruction malloc m = Running m' →
  allocas ctx !! r = Some a → base a ≠ 0 →
  base a ≤ p < base a + size a →
  load64 (heap m') p = None ∧ ∀ v, store64 (heap m') p v = None.
Proof.
  intros Hs Hf Hop Hinv He Hra Hne Hp.
  pose proof (heap_inv_owns m ctx rest Hinv Hs) as Hown.
  pose proof (fetch_frame _ _ _ _ _ Hf) as Hc.
  destruct (frame_dtor_spec malloc ctx' (heap m)) as (h' & Hd & _ & Hcl & _).
  { by subst ctx'. }
  rewrite (step_fetch _ _ _ _ _ _ _ Hs Hf) in He. unfold dispatch in He.
  rewrite Hop in He. cbn [OP_of OP_code heap] in He. rewrite Hd in He.
  cbn in He. injection He as <-. cbn [heap].
  apply access_unmapped. apply (Hcl r a); [by subst ctx' | done | done].
Qed.


(** ** Frames *)

Lemma dispatch_frames i ctx rest M m' :
  dispatch malloc i ctx rest M = Running m' →
  (OP_of (op i) = Some RET ∧ stack_ m' = rest) ∨
  (OP_of (op i) = Some CALL ∧
   ∃ new, stack_ m' = new :: ctx :: rest ∧ values new = ∅ ∧ allocas new = ∅) ∨
  (OP_of (op i) ≠ Some RET ∧ OP_of (op i) ≠ Some CALL ∧
   ∃ top, stack_ m' = top :: rest ∧ f (pc top) = f (pc ctx)).
Proof.
  unfold dispatch, ub. destruct (OP_of (op i)) as [[]|]; [..|done].
  1: { destruct (get i 0); [|done]. destruct (get i 1); [|done]. cbn [mbind option_bind].
       destruct (Allocate _ _ _ _ _) as [[h c]|] eqn:HA; [|done].
       apply Allocate_frame in HA as [Hpc _]. cbn. intros [= <-]. cbn.
       right. right. split; [done|]. split; [done|]. exists c. by rewrite Hpc. }
  all: dispatch_cases; try done.
  all: intros [= <-]; cbn; first
    [ left; done
    | right; left; split; [done|]; by eexists
    | right; right; split; [done|]; split; [done|]; by eexists ].
Qed.

(** X13: a step works on the top frame only, and the frames below it are
    the same list after the step.  RET leaves exactly the frames below;
    CALL leaves on them the caller's frame, with its registers and
    allocations as before, and a new frame with no register and no
    allocation; every other instruction leaves on them one frame of the
    same function in place of the top one. *)
Theorem step_leaves_lower_frames m m' ctx rest i fs ctx' :
  stack_ m = ctx :: rest →
  fetch (funcs m) ctx = Some (i, fs, ctx') →
  ExecuteInstruction malloc m = Running m' →
  (OP_of (op i) = Some RET ∧ stack_ m' = rest) ∨
  (OP_of (op i) = Some CALL ∧
   ∃ new, stack_ m' = new :: ctx' :: rest ∧ values new = ∅ ∧ allocas new = ∅ ∧
          values ctx' = values ctx ∧ allocas ctx' = allocas ctx) ∨
  (OP_of (op i) ≠ Some RET ∧ OP_of (op i) ≠ Some CALL ∧
   ∃ top, stack_ m' = top :: rest ∧ f (pc top) = f (pc ctx)).
Proof.
  intros Hs Hf He. rewrite (step_fetch _ _ _ _ _ _ _ Hs Hf) in He.
  pose proof (fetch_frame _ _ _ _ _ Hf) as Hc.
  destruct (dispatch_frames _ _ _ _ _ He) as [H|[(Hop & new & Hst & Hv & Ha)|(H1 & H2 & top & Hst & Hpc)]].
  - by left.
  - right. left. split; [done|]. exists new. subst ctx'. done.
  - right. right. split; [done|]. split; [done|]. exists top. split; [done|]. by rewrite Hpc, Hc.
Qed.

(** X14: registers are local to a call: a CALL of a function whose entry
    block loads and prints literals and then returns brings the run back to
    the caller with the caller's registers and allocations exactly as they
    were, whatever registers the callee wrote; only the output has grown by
    the callee's literals and the caller's index stands after the CALL. *)
Theorem call_keeps_caller_registers m ctx rest Fc bb i fp F cb l n :
  stack_ m = ctx :: rest →
  funcs m !! f (pc ctx) = Some Fc →
  basic_blocks_ Fc !! ib (pc ctx) = Some bb →
  body_ bb !! ii (pc ctx) = Some i →
  op i = OP_code CALL → get i 0 = Some fp → fp ≠ 0 →
  funcs m !! fp = Some F →
  basic_blocks_ F !! entry F = Some cb →
  body_ cb = imm_debug l ++ [instr RET []] →
  Execute malloc (2 * length l + 2 + n) m =
    Execute malloc n
      {| stack_ := {| allocas := allocas ctx; values := values ctx;
                      pc := {| f := f (pc ctx); ib := ib (pc ctx); ii := S (ii (pc ctx)) |} |}
                   :: rest;
         funcs := funcs m; heap := heap m; cerr := cerr m ++ l.*2 |}.
Proof.
  intros Hs HFc Hb Hi Hop H0 Hfp HF Hcb Hbody.
  replace (2 * length l + 2 + n)%nat with (S (2 * length l + S n)) by lia.
  rewrite (Execute_step _ m
    {| stack_ := new_frame fp F ::
                 set_pc {| f := f (pc ctx); ib := ib (pc ctx); ii := S (ii (pc ctx)) |} ctx :: rest;
       funcs := funcs m; heap := heap m; cerr := cerr m |}).
  2: { rewrite (step_fetch _ _ _ _ _ _ _ Hs (fetch_at _ _ _ _ _ HFc Hb Hi)).
       unfold dispatch. rewrite Hop. cbn [OP_of OP_code]. rewrite H0. cbn [mbind option_bind].
       rewrite decide_False by done. cbn [funcs]. rewrite HF. done. }
  erewrite (imm_debug_run l _ (new_frame fp F) _ F cb [] [instr RET []] (S n));
    [|done|done|done|done|done].
  cbn [stack_ funcs heap cerr new_frame allocas values pc f ib ii length Nat.add].
  erewrite Execute_step; [done|].
  erewrite step_fetch; [|done|].
  2: { apply (fetch_at _ _ F cb); cbn [pc f ib ii]; [done|done|].
       rewrite Hbody. apply list_lookup_middle. by rewrite imm_debug_length. }
  unfold dispatch. cbn [instr op OP_code OP_of]. unfold FunctionContext_dtor.
  cbn [set_pc allocas heap funcs cerr]. rewrite map_to_list_empty. done.
Qed.

(** X15: COPY(dst, src) binds dst to the value of src and changes no other
    register's value: afterwards dst and src read the same, and every
    register other than dst reads as before. *)
Theorem copy_binds_value m ctx rest i fs ctx' dst src :
  stack_ m = ctx :: rest →
  fetch (funcs m) ctx = Some (i, fs, ctx') →
  op i = OP_code COPY →
  get i 0 = Some dst → get i 1 = Some src →
  let top := Assign dst (read (values ctx) src) (set_values (touch src (values ctx)) ctx') in
  ExecuteInstruction malloc m =
    Running {| stack_ := top :: rest; funcs := fs; heap := heap m; cerr := cerr m |} ∧
  read (values top) dst = read (values ctx) src ∧
  read (values top) src = read (values ctx) src ∧
  (∀ r, r ≠ dst → read (values top) r = read (values ctx) r).
Proof.
  intros Hs Hf Hop H0 H1 top.
  pose proof (fetch_frame _ _ _ _ _ Hf) as Hc.
  assert (read (values top) dst = read (values ctx) src) as Hd.
  { subst top. unfold read at 1. cbn. by rewrite lookup_insert_eq. }
  assert (∀ r, r ≠ dst → read (values top) r = read (values ctx) r) as Ho.
  { intros r Hr. subst top. unfold read at 1. cbn. rewrite lookup_insert_ne by done.
    apply (read_touch src r). }
  split; [|split; [done|split; [|done]]].
  - rewrite (step_fetch _ _ _ _ _ _ _ Hs Hf). unfold dispatch. rewrite Hop. cbn [OP_of OP_code].
    rewrite H1. cbn [mbind option_bind]. rewrite GetVal_eq, H0. subst ctx' top. done.
  - destruct (decide (src = dst)) as [->|Hne]; [done | by apply Ho].
Qed.

(** X16: CMP tests cond for equality with the ordering and does not check
    it: a cond that is none of LT, EQ, GT binds dst to 0 whatever the
    operands, and for cond among the three exactly the one that names the
    ordering binds 1. *)
Theorem cmp_cond_unchecked m ctx rest i fs ctx' dst cond a b :
  stack_ m = ctx :: rest →
  fetch (funcs m) ctx = Some (i, fs, ctx') →
  op i = OP_code CMP →
  get i 0 = Some dst → get i 1 = Some cond → get i 2 = Some a → get i 3 = Some b →
  ∃ top flag,
    ExecuteInstruction malloc m =
      Running {| stack_ := top :: rest; funcs := fs; heap := heap m; cerr := cerr m |} ∧
    values top !! dst = Some flag ∧
    (flag = 0 ∨ flag = 1) ∧
    (cond ≠ LT → cond ≠ EQ → cond ≠ GT → flag = 0) ∧
    (flag = 1 ↔ cond = ordering (read (values ctx) a) (read (values ctx) b)).
Proof.
  intros Hs Hf Hop H0 H1 H2 H3.
  pose proof (fetch_frame _ _ _ _ _ Hf) as Hc.
  eexists _, (if decide (ordering (read (values ctx) a) (read (values ctx) b) = cond) then 1 else 0).
  split; [|split; [|split; [|split]]].
  - rewrite (step_fetch _ _ _ _ _ _ _ Hs Hf). unfold dispatch. rewrite Hop. cbn [OP_of OP_code].
    rewrite H0, H1, H2. cbn [mbind option_bind]. rewrite GetVal_eq, H3. cbn [mbind option_bind].
    rewrite GetVal_eq. cbn [values set_values]. rewrite read_touch, flag_ordering.
    subst ctx'. cbn [values set_pc]. done.
  - cbn. apply lookup_insert_eq.
  - case_decide; auto.
  - intros ? ? ?. case_decide as E; [|done].
    destruct (ordering_cases (read (values ctx) a) (read (values ctx) b)) as [[E' _]|[[E' _]|[E' _]]];
      congruence.
  - case_decide; split; try done; congruence.
Qed.

(** X17: every step keeps the ownership invariant of the heap when [malloc]
    returns fresh addresses: every non-null region recorded by a frame is
    live with its recorded size, no region is recorded twice, and every
    live region is recorded by a frame. *)
Theorem step_keeps_ownership m m' :
  malloc_fresh malloc → heap_inv m →
  ExecuteInstruction malloc m = Running m' →
  heap_inv m'.
Proof. apply heap_inv_step. Qed.

(** ** Runs without end *)

(** X18: the engine puts no bound on a run: a block that begins with a BR
    whose two targets are the block itself is executed again and again, so
    the run neither exits nor faults however many instructions it is given,
    and it prints nothing. *)
Theorem self_branch_runs_forever fuel : ∀ m ctx rest F bb i c,
  stack_ m = ctx :: rest →
  funcs m !! f (pc ctx) = Some F →
  basic_blocks_ F !! ib (pc ctx) = Some bb →
  ii (pc ctx) = 0%nat →
  body_ bb !! 0%nat = Some i →
  op i = OP_code BR →
  get i 0 = Some c → get i 1 = Some (ib (pc ctx)) → get i 2 = Some (ib (pc ctx)) →
  ∃ m', Execute malloc fuel m = Timeout m' ∧ cerr m' = cerr m ∧
        length (stack_ m') = length (stack_ m).
Proof.
  induction fuel as [|n IH]; intros m ctx rest F bb i c Hs HF Hb Hii Hi Hop H0 H1 H2.
  - exists m. cbn [Execute]. by rewrite Hs.
  - pose proof (fetch_at (funcs m) ctx F bb i HF Hb) as Hf. rewrite Hii in Hf.
    specialize (Hf Hi).
    assert (ExecuteInstruction malloc m =
      Running {| stack_ := {| allocas := allocas ctx; values := touch c (values ctx);
                              pc := {| f := f (pc ctx); ib := ib (pc ctx); ii := 0 |} |} :: rest;
                 funcs := funcs m; heap := heap m; cerr := cerr m |}) as He.
    { rewrite (step_fetch _ _ _ _ _ _ _ Hs Hf). unfold dispatch. rewrite Hop. cbn [OP_of OP_code].
      rewrite H0. cbn [mbind option_bind]. rewrite GetVal_eq.
      cbn [values set_values set_pc pc f ib ii allocas].
      destruct (decide (read (values ctx) c ≠ 0)); rewrite ?H1, ?H2; done. }
    rewrite (Execute_step _ _ _ He).
    match type of He with
    | _ = Running ?M =>
        destruct (IH M _ rest F bb i c eq_refl HF Hb eq_refl Hi Hop H0 H1 H2)
          as (m' & Hm' & Hc & Hl)
    end.
    exists m'. split; [done|]. split; [done|]. by rewrite Hl, Hs.
Qed.

End EngineLaws.

(** ** The further properties on concrete machines *)


Lemma output_only_grows_witness :
  ExecuteInstruction bump_malloc (one_instr (instr DEBUG [1]) {[ 1 := 5 ]}) =
    Running {| stack_ := [one_frame {[ 1 := 5 ]} 1];
               funcs := {[ F_addr := one_func (instr DEBUG [1]) ]};
               heap := empty_heap; cerr := [5] |} ∧
  ∃ m', Execute bump_malloc 5 call_machine = Exited m' ∧
        cerr m' = [4096; 0] ∧ cerr call_machine `prefix_of` cerr m'.
Proof.
  split.
  - assert (ExecuteInstruction bump_malloc (one_instr (instr DEBUG [1]) {[ 1 := 5 ]}) =
      Running {| stack_ := [one_frame {[ 1 := 5 ]} 1];
                 funcs := {[ F_addr := one_func (instr DEBUG [1]) ]};
                 heap := empty_heap; cerr := [5] |}) as He by (vm_compute; reflexivity).
    destruct (proj1 (output_only_grows bump_malloc)
      (one_instr (instr DEBUG [1]) {[ 1 := 5 ]}) (one_frame {[ 1 := 5 ]} 0) []
      (instr DEBUG [1]) {[ F_addr := one_func (instr DEBUG [1]) ]} (one_frame {[ 1 := 5 ]} 1)
      _ eq_refl eq_refl He) as [_|[Hn _]]; [exact He|].
    exfalso. apply Hn. reflexivity.
  - eexists. split; [vm_compute; reflexivity|]. split; [reflexivity|].
    apply (proj2 (proj2 (output_only_grows bump_malloc)) 5%nat call_machine).
    left. vm_compute. reflexivity.
Defined.

Lemma exit_leaves_no_allocation_witness :
  ∃ m', ExecuteEntry bump_malloc 6 F_addr (init {[ F_addr := alloc_F ]}) = Exited m' ∧
        cerr m' = [7] ∧ stack_ m' = [] ∧ blocks (heap m') = ∅.
Proof.
  eexists. split; [vm_compute; reflexivity|]. split; [reflexivity|].
  apply (exit_leaves_no_allocation bump_malloc 6 F_addr {[ F_addr := alloc_F ]});
    [exact bump_malloc_fresh | vm_compute; reflexivity].
Defined.

Lemma store_then_load_witness :
  ∃ h', store64 (heap_malloc empty_heap 16 16) 24 (-1024) = Some h' ∧
        load64 h' 24 = Some (-1024).
Proof.
  eexists. split; [vm_compute; reflexivity|].
  apply (store_then_load (heap_malloc empty_heap 16 16) 24 (-1024));
    [vm_compute; reflexivity | unfold is_int64; lia].
Defined.

Lemma block_end_undefined_witness :
  ExecuteInstruction bump_malloc
    {| stack_ := [one_frame ∅ 1]; funcs := {[ F_addr := one_func (instr IMM [1; 2]) ]};
       heap := empty_heap; cerr := [] |} = Undefined.
Proof.
  apply (block_end_undefined bump_malloc _ (one_frame ∅ 1) [] (one_func (instr IMM [1; 2]))
           {| body_ := [instr IMM [1; 2]] |}); [reflexivity | reflexivity | reflexivity | cbn; lia].
Defined.

Lemma short_operands_undefined_witness :
  dispatch bump_malloc (instr IMM [1]) (one_frame ∅ 1) [] (one_instr (instr IMM [1]) ∅)
  = Undefined.
Proof.
  apply (short_operands_undefined bump_malloc (instr IMM [1]) IMM); [reflexivity | cbn; lia].
Defined.

Lemma extra_operands_ignored_witness :
  dispatch bump_malloc (instr DEBUG [1]) (one_frame {[ 1 := 4096 ]} 1) []
    (one_instr (instr DEBUG [1; 4096]) {[ 1 := 4096 ]})
  = dispatch bump_malloc (instr DEBUG [1; 4096]) (one_frame {[ 1 := 4096 ]} 1) []
      (one_instr (instr DEBUG [1; 4096]) {[ 1 := 4096 ]}).
Proof.
  apply (extra_operands_ignored bump_malloc (instr DEBUG [1; 4096]) DEBUG). reflexivity.
Defined.

Lemma imm_debug_prints_literals_witness :
  ∃ m', Execute bump_malloc 5 (print_machine [(1, 5); (2, 6)]) = Exited m' ∧
        cerr m' = [5; 6].
Proof.
  eexists. split.
  - refine (eq_trans
      (imm_debug_prints_literals bump_malloc [(1, 5); (2, 6)]
         (print_machine [(1, 5); (2, 6)])
         (new_frame F_addr (print_F [(1, 5); (2, 6)])) [] (print_F [(1, 5); (2, 6)])
         {| body_ := imm_debug [(1, 5); (2, 6)] ++ [instr RET []] |}
         [] [instr RET []] 1 eq_refl eq_refl eq_refl eq_refl eq_refl) _).
    vm_compute. reflexivity.
  - reflexivity.
Defined.

Lemma alloca_records_region_witness :
  ∃ h',
    ExecuteInstruction bump_malloc (one_instr (instr ALLOCA [1; 16]) ∅) =
      Running {| stack_ := [ {| allocas := {[ 1 := {| base := 16; size := 16 |} ]};
                                values := {[ 1 := 16 ]};
                                pc := {| f := F_addr; ib := 0; ii := 1 |} |} ];
                 funcs := {[ F_addr := one_func (instr ALLOCA [1; 16]) ]};
                 heap := h'; cerr := [] |} ∧
    blocks h' !! 16 = Some 16 ∧
    is_Some (store64 h' 24 7).
Proof.
  destruct (alloca_records_region bump_malloc (one_instr (instr ALLOCA [1; 16]) ∅)
              (one_frame ∅ 0) [] (instr ALLOCA [1; 16])
              {[ F_addr := one_func (instr ALLOCA [1; 16]) ]} (one_frame ∅ 1) 1 16
              eq_refl eq_refl eq_refl eq_refl eq_refl eq_refl)
    as (He & _ & _ & _ & Hb & Hw).
  eexists. split; [exact He|]. split.
  - apply Hb. vm_compute. discriminate.
  - apply (Hw ltac:(vm_compute; split; reflexivity) 8 7); [lia | vm_compute; discriminate | reflexivity].
Defined.

Lemma alloca_twice_dangles_witness :
  ∃ m' top,
    ExecuteInstruction bump_malloc (owning_machine (instr ALLOCA [1; 8])) = Running m' ∧
    stack_ m' = [top] ∧
    read (values top) 1 = 528 ∧
    load64 (heap m') 528 = None.
Proof.
  eexists. 
  assert (ExecuteInstruction bump_malloc (owning_machine (instr ALLOCA [1; 8])) = Running _) as He
    by (vm_compute; reflexivity).
  destruct (alloca_twice_dangles bump_malloc (owning_machine (instr ALLOCA [1; 8]))
    {| allocas := {[ 1 := {| base := 16; size := 16 |} ]}; values := {[ 1 := 16 ]};
       pc := {| f := F_addr; ib := 0; ii := 0 |} |}
    [] (instr ALLOCA [1; 8]) {[ F_addr := one_func (instr ALLOCA [1; 8]) ]}
    {| allocas := {[ 1 := {| base := 16; size := 16 |} ]}; values := {[ 1 := 16 ]};
       pc := {| f := F_addr; ib := 0; ii := 1 |} |}
    1 8 {| base := 16; size := 16 |} _
    eq_refl eq_refl eq_refl eq_refl eq_refl eq_refl
    ltac:(vm_compute; split; reflexivity) ltac:(vm_compute; reflexivity) He)
    as (top & Hst & Hl & _).
  exists top. split; [exact He|]. split; [exact Hst|].
  assert (read (values top) 1 = 528) as Hv.
  { cbn in Hst. injection Hst as <-. vm_compute. reflexivity. }
  split; [exact Hv|]. rewrite Hv in Hl. exact Hl.
Defined.

Lemma use_after_return_undefined_witness :
  ∃ m',
    ExecuteInstruction bump_malloc (owning_machine (instr RET [])) = Running m' ∧
    load64 (heap m') 24 = None ∧ store64 (heap m') 24 7 = None.
Proof.
  eexists.
  assert (ExecuteInstruction bump_malloc (owning_machine (instr RET [])) = Running _) as He
    by (vm_compute; reflexivity).
  destruct (use_after_return_undefined bump_malloc (owning_machine (instr RET []))
    {| allocas := {[ 1 := {| base := 16; size := 16 |} ]}; values := {[ 1 := 16 ]};
       pc := {| f := F_addr; ib := 0; ii := 0 |} |}
    [] (instr RET []) {[ F_addr := one_func (instr RET []) ]}
    {| allocas := {[ 1 := {| base := 16; size := 16 |} ]}; values := {[ 1 := 16 ]};
       pc := {| f := F_addr; ib := 0; ii := 1 |} |}
    _ 1 {| base := 16; size := 16 |} 24
    eq_refl eq_refl eq_refl (owning_machine_inv (instr RET [])) He eq_refl
    ltac:(vm_compute; discriminate) ltac:(vm_compute; split; [discriminate | reflexivity]))
    as (Hl & Hst).
  split; [exact He|]. split; [exact Hl | exact (Hst 7)].
Defined.


Lemma step_leaves_lower_frames_witness :
  (∃ m', ExecuteInstruction bump_malloc (two_frame_machine (instr RET [])) = Running m' ∧
         stack_ m' = [lower_frame]) ∧
  (∃ m' new,
     ExecuteInstruction bump_malloc (two_frame_machine (instr CALL [F_addr])) = Running m' ∧
     stack_ m' = [new; one_frame {[ 1 := 3 ]} 1; lower_frame] ∧ values new = ∅) ∧
  (∃ m' top,
     ExecuteInstruction bump_malloc (two_frame_machine (instr IMM [1; 7])) = Running m' ∧
     stack_ m' = [top; lower_frame]).
Proof.
  split; [|split].
  - eexists.
    assert (ExecuteInstruction bump_malloc (two_frame_machine (instr RET [])) = Running _) as He
      by (vm_compute; reflexivity).
    split; [exact He|].
    destruct (step_leaves_lower_frames bump_malloc (two_frame_machine (instr RET [])) _
      (one_frame {[ 1 := 3 ]} 0) [lower_frame] (instr RET [])
      {[ F_addr := one_func (instr RET []) ]} (one_frame {[ 1 := 3 ]} 1)
      eq_refl eq_refl He) as [[_ Hst]|[[Hop _]|(Hop & _)]];
      [exact Hst | discriminate Hop | exfalso; by apply Hop].
  - eexists.
    assert (ExecuteInstruction bump_malloc (two_frame_machine (instr CALL [F_addr])) = Running _)
      as He by (vm_compute; reflexivity).
    destruct (step_leaves_lower_frames bump_malloc (two_frame_machine (instr CALL [F_addr])) _
      (one_frame {[ 1 := 3 ]} 0) [lower_frame] (instr CALL [F_addr])
      {[ F_addr := one_func (instr CALL [F_addr]) ]} (one_frame {[ 1 := 3 ]} 1)
      eq_refl eq_refl He) as [[Hop _]|[(_ & new & Hst & Hv & _)|(_ & Hop & _)]];
      [discriminate Hop | | exfalso; by apply Hop].
    exists new. split; [exact He|]. split; [exact Hst | exact Hv].
  - eexists.
    assert (ExecuteInstruction bump_malloc (two_frame_machine (instr IMM [1; 7])) = Running _)
      as He by (vm_compute; reflexivity).
    destruct (step_leaves_lower_frames bump_malloc (two_frame_machine (instr IMM [1; 7])) _
      (one_frame {[ 1 := 3 ]} 0) [lower_frame] (instr IMM [1; 7])
      {[ F_addr := one_func (instr IMM [1; 7]) ]} (one_frame {[ 1 := 3 ]} 1)
      eq_refl eq_refl He) as [[Hop _]|[[Hop _]|(_ & _ & top & Hst & _)]];
      [discriminate Hop | discriminate Hop |].
    exists top. split; [exact He | exact Hst].
Defined.

Lemma call_keeps_caller_registers_witness :
  ∃ m', Execute bump_malloc 8 (caller_machine [(1, 5); (2, 6)]) = Exited m' ∧
        cerr m' = [5; 6; 1024].
Proof.
  eexists. split.
  - refine (eq_trans
      (call_keeps_caller_registers bump_malloc (caller_machine [(1, 5); (2, 6)])
         {| allocas := ∅; values := {[ 1 := 1024 ]};
            pc := {| f := F_addr; ib := 0; ii := 1 |} |}
         [] caller_F
         {| body_ := [ instr IMM [1; 1024]; instr CALL [Callee_addr]; instr DEBUG [1];
                       instr RET [] ] |}
         (instr CALL [Callee_addr]) Callee_addr (print_F [(1, 5); (2, 6)])
         {| body_ := imm_debug [(1, 5); (2, 6)] ++ [instr RET []] |}
         [(1, 5); (2, 6)] 2
         eq_refl eq_refl eq_refl eq_refl eq_refl eq_refl ltac:(discriminate)
         eq_refl eq_refl eq_refl) _).
    vm_compute. reflexivity.
  - reflexivity.
Defined.

Lemma copy_binds_value_witness :
  ExecuteInstruction bump_malloc (one_instr (instr COPY [2; 1]) {[ 1 := 5 ]}) =
    Running {| stack_ := [one_frame {[ 1 := 5; 2 := 5 ]} 1];
               funcs := {[ F_addr := one_func (instr COPY [2; 1]) ]};
               heap := empty_heap; cerr := [] |}.
Proof.
  refine (eq_trans (proj1
    (copy_binds_value bump_malloc (one_instr (instr COPY [2; 1]) {[ 1 := 5 ]})
       (one_frame {[ 1 := 5 ]} 0) [] (instr COPY [2; 1])
       {[ F_addr := one_func (instr COPY [2; 1]) ]} (one_frame {[ 1 := 5 ]} 1) 2 1
       eq_refl eq_refl eq_refl eq_refl eq_refl)) _).
  vm_compute. reflexivity.
Defined.

Lemma cmp_cond_unchecked_witness :
  ∃ top,
    ExecuteInstruction bump_malloc (one_instr (instr CMP [9; 7; 1; 1]) {[ 1 := 5 ]}) =
      Running {| stack_ := [top]; funcs := {[ F_addr := one_func (instr CMP [9; 7; 1; 1]) ]};
                 heap := empty_heap; cerr := [] |} ∧
    values top !! 9 = Some 0.
Proof.
  destruct (cmp_cond_unchecked bump_malloc (one_instr (instr CMP [9; 7; 1; 1]) {[ 1 := 5 ]})
    (one_frame {[ 1 := 5 ]} 0) [] (instr CMP [9; 7; 1; 1])
    {[ F_addr := one_func (instr CMP [9; 7; 1; 1]) ]} (one_frame {[ 1 := 5 ]} 1) 9 7 1 1
    eq_refl eq_refl eq_refl eq_refl eq_refl eq_refl eq_refl)
    as (top & flag & He & Hv & _ & H0 & _).
  exists top. split; [exact He|].
  rewrite Hv. f_equal. apply H0; discriminate.
Defined.

Lemma step_keeps_ownership_witness :
  ∃ m', ExecuteInstruction bump_malloc (owning_machine (instr ALLOCA [2; 8])) = Running m' ∧
        heap_inv m'.
Proof.
  eexists.
  assert (ExecuteInstruction bump_malloc (owning_machine (instr ALLOCA [2; 8])) = Running _) as He
    by (vm_compute; reflexivity).
  split; [exact He|].
  exact (step_keeps_ownership bump_malloc _ _ bump_malloc_fresh
           (owning_machine_inv (instr ALLOCA [2; 8])) He).
Defined.

Lemma self_branch_runs_forever_witness :
  ∃ m', Execute bump_malloc 100 (one_instr (instr BR [1; 0; 0]) ∅) = Timeout m' ∧
        cerr m' = [].
Proof.
  destruct (self_branch_runs_forever bump_malloc 100 (one_instr (instr BR [1; 0; 0]) ∅)
    (one_frame ∅ 0) [] (one_func (instr BR [1; 0; 0])) {| body_ := [instr BR [1; 0; 0]] |}
    (instr BR [1; 0; 0]) 1
    eq_refl eq_refl eq_refl eq_refl eq_refl eq_refl eq_refl eq_refl eq_refl)
    as (m' & He & Hc & _).
  exists m'. split; [exact He | exact Hc].
Defined.
